(** * The replica blob store (pkg/blobserver/replica/replica.go)

    A shallow embedding of the "replica" storage type: construction from a
    configuration, the request-scoped copy, fetch fallback, and the three
    fan-out operations (stat, receive, remove).

    Goroutines and channels are embedded by their observable protocol: every
    worker goroutine sends on a channel, and the coordinating function
    receives from it.  The order in which values arrive on a channel is the
    only scheduling freedom the coordinator can observe, so every operation
    takes the arrival order as an argument and the theorems quantify over
    all arrival orders that the workers can produce.  A receive on a channel
    that is empty, not closed and has no sender left never completes, and
    neither does a write to a pipe whose reader has stopped reading; the
    operations therefore return an [outcome] that is either a returned value
    or [Blocks]. *)

From Stdlib Require Import ZArith Lia DecimalString.
From stdpp Require Import base gmap sets list strings.

#[local] Set Warnings "-clear-no-such-hyp".

(** ** Values of the Go runtime and of the imported packages *)

(** A Go [error] is represented by its message; [None] is the nil error. *)
Definition error := string.

(** [errors.New] *)
Definition errors_New (msg : string) : error := msg.

(** The "%d" verb of package fmt on an integer. *)
Definition fmt_d (z : Z) : string := NilZero.string_of_int (Z.to_int z).

(** Types that replica.go imports and never inspects: blob references
    (package blobref) with their [String] method, which the pointer receiver
    also accepts for nil, HTTP requests and stream handles. *)
Class External := {
  BlobRef : Type;
  BlobRef_String : option BlobRef → string;
  Request : Type;
  ReadCloser : Type;
}.

(** What a function that may wait on a channel does. *)
Inductive outcome (A : Type) : Type :=
  | Returns (a : A)
  | Blocks.
Arguments Returns {A} a.
Arguments Blocks {A}.

(** A fallible result [(value, error)] of which only one side is used. *)
Inductive result (A : Type) : Type :=
  | Ok (a : A)
  | Err (e : error).
Arguments Ok {A} a.
Arguments Err {A} e.

(** A channel as seen by its only receiver: the values that the senders
    deliver, in arrival order, and whether the channel is closed once they
    are used up. *)
Record chan (A : Type) := Chan { pending : list A; closed : bool }.
Arguments Chan {A} pending closed.
Arguments pending {A} c.
Arguments closed {A} c.

Inductive received (A : Type) : Type :=
  | Got (a : A) (rest : chan A)
  | ChanClosed
  | Never.
Arguments Got {A} a rest.
Arguments ChanClosed {A}.
Arguments Never {A}.

(** [<-c], or one step of [range c]. *)
Definition recv {A} (c : chan A) : received A :=
  match pending c with
  | x :: xs => Got x (Chan xs (closed c))
  | [] => if closed c then ChanClosed else Never
  end.

(** An [io.Reader]: the bytes it yields, then end-of-file ([None]) or a
    read error. *)
Record Reader := { data : list Byte.byte; readErr : option error }.

(** The read end of an [io.Pipe], as the goroutine at the write end meets
    it: the goroutine that holds the read end reads until the write end is
    closed, or it reads [n] bytes and then stops reading.  The pipe has no
    buffer: a write returns when its bytes have been read, and never if the
    reader stops before that (nothing in this package closes a read
    end). *)
Inductive reads :=
  | ReadsAll
  | ReadsOnly (n : nat).

(** Whether the writes of [n] bytes in all into a pipe return. *)
Definition takes (r : reads) (n : nat) : bool :=
  match r with
  | ReadsAll => true
  | ReadsOnly k => n <=? k
  end.

(** [io.Copy(io.MultiWriter(writers...), source)], the writers being the
    write ends of pipes.  Every byte read from the source is written to
    every pipe before the next read, so the copy gets to the end of the
    source, or to its read error, only if every pipe takes all the bytes;
    it then returns their number and the read error, if any.  Otherwise a
    write never returns and neither does the copy. *)
Definition io_Copy (writers : list reads) (source : Reader) : outcome (Z * option error) :=
  if forallb (λ w, takes w (length (data source))) writers
  then Returns (Z.of_nat (length (data source)), readErr source)
  else Blocks.

Definition loc := positive.

Section Model.
Context `{External}.

(** A [*blobref.BlobRef]; [None] is the nil pointer. *)
Definition BlobRefPtr : Type := option BlobRef.

(** [blobref.SizedBlobRef] *)
Record SizedBlobRef := { SBlobRef : BlobRefPtr; Size : Z }.

Definition SizedBlobRef_zero : SizedBlobRef := {| SBlobRef := None; Size := 0 |}.

(** What a call of a backend's [ReceiveBlob] on a stream does: the two
    values it returns and how much of the stream it has read when it
    returns. *)
Record upload := { up_sb : SizedBlobRef; up_err : option error; up_reads : reads }.

(** The result triple of a streaming fetch. *)
Record fetched := { file : option ReadCloser; fsize : Z; ferr : option error }.

Definition fetched_zero : fetched := {| file := None; fsize := 0; ferr := None |}.

(** [blobserver.Storage]: an interface value, as the record of its methods.
    Stat and enumerate deliver their matches on the channel they are given
    and then return; the record holds the values sent and the error.
    Receive is given the stream to store, here the bytes that the stream
    has to offer. *)
Record Storage := {
  Storage_FetchStreaming : BlobRefPtr → fetched;
  Storage_StatBlobs : list BlobRefPtr → Z → list SizedBlobRef * option error;
  Storage_ReceiveBlob : BlobRefPtr → list Byte.byte → upload;
  Storage_RemoveBlobs : list BlobRefPtr → option error;
  Storage_EnumerateBlobs : string → Z → Z → list SizedBlobRef * option error;
}.

(** Helpers of package blobserver that replica.go calls. *)
Class Blobserver := {
  MaybeWrapContext : Storage → option Request → Storage;
  MergedEnumerate : list Storage → string → Z → Z → list SizedBlobRef * option error;
}.

(** Modelled from the spec: package jsonconfig is not part of the sources.
    [jsonconfig.Obj], as far as [newFromConfig] reads it: a configuration
    names an ordered list of backend locators and an optional
    minimum-success count, and its validation rejects unknown keys. *)
Record Obj := {
  cfg_backends : list string;
  cfg_minWritesForSuccess : option Z;
  cfg_invalid : option error;
}.

Definition RequiredList_backends (config : Obj) : list string := cfg_backends config.

Definition OptionalInt_minWritesForSuccess (config : Obj) (def : Z) : Z :=
  default def (cfg_minWritesForSuccess config).

Definition Validate (config : Obj) : option error := cfg_invalid config.

(** [blobserver.Loader] *)
Record Loader := { GetStorage : string → result Storage }.

(** ** The replica store *)

Definition buffered : Z := 8.

Record replicaStorage := {
  SimpleBlobHubPartitionMap : loc;
  replicaPrefixes : list string;
  replicas : list Storage;
  minWritesForSuccess : Z;
  ctx : option Request;
}.

(** Heap objects that the package allocates. *)
Inductive object :=
  | ObjHubMap
  | ObjReplica (s : replicaStorage).

Definition alloc (h : gmap loc object) (o : object) : gmap loc object * loc :=
  let l := fresh (dom h) in (<[l := o]> h, l).

Definition deref (h : gmap loc object) (p : loc) : option replicaStorage :=
  match h !! p with
  | Some (ObjReplica s) => Some s
  | _ => None
  end.

(** [WrapContext]: [s2 := new(replicaStorage); *s2 = *sto; s2.ctx = req]. *)
Definition withContext (sto : replicaStorage) (req : option Request) : replicaStorage :=
  {| SimpleBlobHubPartitionMap := SimpleBlobHubPartitionMap sto;
     replicaPrefixes := replicaPrefixes sto;
     replicas := replicas sto;
     minWritesForSuccess := minWritesForSuccess sto;
     ctx := req |}.

Definition WrapContext (h : gmap loc object) (sto : loc) (req : option Request)
  : option (gmap loc object * loc) :=
  match deref h sto with
  | Some s => Some (alloc h (ObjReplica (withContext s req)))
  | None => None
  end.

Context `{Blobserver}.

Definition wrappedReplicas (sto : replicaStorage) : list Storage :=
  match ctx sto with
  | None => replicas sto
  | Some _ => (λ r, MaybeWrapContext r (ctx sto)) <$> replicas sto
  end.

(** The loop of [newFromConfig] that resolves the prefixes in order. *)
Fixpoint resolveReplicas (ld : Loader) (prefixes : list string) : result (list Storage) :=
  match prefixes with
  | [] => Ok []
  | prefix :: rest =>
      match GetStorage ld prefix with
      | Err e => Err e
      | Ok replicaSto =>
          match resolveReplicas ld rest with
          | Err e => Err e
          | Ok stos => Ok (replicaSto :: stos)
          end
      end
  end.

(** [newFromConfig].  The first statement allocates the hub map and the
    store; an assignment to a field of [sto] is a write to that object, and
    the heap that is returned holds the object as the assignments made on
    the path have left it (on the error paths nothing refers to it any
    more).  A slice is embedded as the list of its elements: the slice made
    for [sto.replicas] is what [resolveReplicas] fills, and the field holds
    it when the loop has run to its end. *)
Definition newFromConfig (h : gmap loc object) (ld : Loader) (config : Obj)
  : gmap loc object * result loc :=
  let '(h, hub) := alloc h ObjHubMap in
  let '(h, sto) :=
    alloc h (ObjReplica {| SimpleBlobHubPartitionMap := hub;
                           replicaPrefixes := [];
                           replicas := [];
                           minWritesForSuccess := 0;
                           ctx := None |}) in
  let prefixes := RequiredList_backends config in
  let nReplicas := Z.of_nat (length prefixes) in
  let mws := OptionalInt_minWritesForSuccess config nReplicas in
  let h := <[sto := ObjReplica {| SimpleBlobHubPartitionMap := hub;
                                  replicaPrefixes := prefixes;
                                  replicas := [];
                                  minWritesForSuccess := mws;
                                  ctx := None |}]> h in
  match Validate config with
  | Some e => (h, Err e)
  | None =>
      if (nReplicas =? 0)%Z then (h, Err (errors_New "replica: need at least one replica"))
      else
        let mws := if (mws =? 0)%Z then nReplicas else mws in
        let h := <[sto := ObjReplica {| SimpleBlobHubPartitionMap := hub;
                                        replicaPrefixes := prefixes;
                                        replicas := [];
                                        minWritesForSuccess := mws;
                                        ctx := None |}]> h in
        match resolveReplicas ld prefixes with
        | Err e => (h, Err e)
        | Ok stos =>
            (<[sto := ObjReplica {| SimpleBlobHubPartitionMap := hub;
                                    replicaPrefixes := prefixes;
                                    replicas := stos;
                                    minWritesForSuccess := mws;
                                    ctx := None |}]> h, Ok sto)
        end
  end.

(** ** FetchStreaming *)

(** The loop over [sto.replicas]; the second component counts the backends
    whose fetch was called. *)
Fixpoint FetchStreaming_loop (rs : list Storage) (b : BlobRefPtr)
    (cur : fetched) (consulted : nat) : fetched * nat :=
  match rs with
  | [] => (cur, consulted)
  | replica :: rest =>
      let r := Storage_FetchStreaming replica b in
      match ferr r with
      | None => (r, S consulted)
      | Some _ => FetchStreaming_loop rest b r (S consulted)
      end
  end.

Definition FetchStreaming (sto : replicaStorage) (b : BlobRefPtr) : fetched * nat :=
  FetchStreaming_loop (replicas sto) b fetched_zero 0.

(** ** StatBlobs *)

(** [need[br.String()] = br] for every requested reference. *)
Definition StatBlobs_need (blobs : list BlobRefPtr) : gmap string BlobRefPtr :=
  foldl (λ need br, <[BlobRef_String br := br]> need) ∅ blobs.

(** The helper goroutine: [for sb := range ch], over the values that the
    backends deliver on [ch], with the pending map and the values forwarded
    to [dest] so far. *)
Fixpoint StatBlobs_funnel (ch : list SizedBlobRef) (need : gmap string BlobRefPtr)
    (dest : list SizedBlobRef) : gmap string BlobRefPtr * list SizedBlobRef :=
  match ch with
  | [] => (need, dest)
  | sb :: rest =>
      let bstr := BlobRef_String (SBlobRef sb) in
      match need !! bstr with
      | Some _ => StatBlobs_funnel rest (delete bstr need) (dest ++ [sb])
      | None => StatBlobs_funnel rest need dest
      end
  end.

(** A receive expression [<-c]: a closed channel yields the zero value. *)
Definition recv_value {A} (zero : A) (c : chan A) : option (A * chan A) :=
  match recv c with
  | Got x rest => Some (x, rest)
  | ChanClosed => Some (zero, c)
  | Never => None
  end.

(** [for _ = range sto.replicas { if err := <-errch; err != nil { retErr = err } }] *)
Fixpoint StatBlobs_collect (rs : list Storage) (errch : chan (option error))
    (retErr : option error) : outcome (option error) :=
  match rs with
  | [] => Returns retErr
  | _ :: rest =>
      match recv_value None errch with
      | None => Blocks
      | Some (Some e, errch') => StatBlobs_collect rest errch' (Some e)
      | Some (None, errch') => StatBlobs_collect rest errch' retErr
      end
  end.

(** What the stat worker of each backend produces: the values it sends on
    [ch] and the error it sends on [errch]. *)
Definition StatBlobs_workers (sto : replicaStorage) (blobs : list BlobRefPtr) (wait : Z)
  : list (list SizedBlobRef * option error) :=
  (λ s, Storage_StatBlobs s blobs wait) <$> wrappedReplicas sto.

Record StatBlobs_run := {
  stat_ret : outcome (option error);
  stat_dest : list SizedBlobRef;
  stat_need : gmap string BlobRefPtr;
}.

(** [StatBlobs], given the arrival order [ch] of the reported values and
    the arrival order [errch] of the workers' errors. *)
Definition StatBlobs (sto : replicaStorage) (blobs : list BlobRefPtr) (wait : Z)
    (ch : list SizedBlobRef) (errch : list (option error)) : StatBlobs_run :=
  let '(need, dest) := StatBlobs_funnel ch (StatBlobs_need blobs) [] in
  {| stat_ret :=
       match StatBlobs_collect (replicas sto) (Chan errch false) None with
       | Blocks => Blocks
       | Returns retErr =>
           if decide (size need = 0) then Returns None else Returns retErr
       end;
     stat_dest := dest;
     stat_need := need |}.

(** ** ReceiveBlob *)

Record sizedBlobAndError := { sb : SizedBlobRef; err : option error }.

Definition sizedBlobAndError_zero : sizedBlobAndError :=
  {| sb := SizedBlobRef_zero; err := None |}.

(** Effects of [ReceiveBlob] outside its return value. *)
Inductive event :=
  | NotifyBlobReceived (hub : loc) (b : BlobRefPtr)
  | LogPrintf (nSuccess nFailures : Z) (last : option error).

Record ReceiveBlob_run := {
  recv_ret : outcome (SizedBlobRef * option error);
  recv_taken : nat;
  recv_events : list event;
}.

Definition sizeMismatch (reported expected : Z) : error :=
  "replica: upload shard reported size " +:+ fmt_d reported
    +:+ ", expected " +:+ fmt_d expected.

(** The loop [for _ = range sto.replicas { res := <-upResult; switch ... }]
    and the code after it.  [taken] counts the receives from [upResult]. *)
Fixpoint ReceiveBlob_collect (sto : replicaStorage) (b : BlobRefPtr) (size : Z)
    (rs : list Storage) (upResult : chan sizedBlobAndError)
    (nSuccess nFailures : Z) (e : option error) (taken : nat) : ReceiveBlob_run :=
  match rs with
  | [] =>
      {| recv_ret := Returns (SizedBlobRef_zero, e);
         recv_taken := taken;
         recv_events := if (nFailures >? 0)%Z then [LogPrintf nSuccess nFailures e] else [] |}
  | _ :: rest =>
      match recv_value sizedBlobAndError_zero upResult with
      | None => {| recv_ret := Blocks; recv_taken := taken; recv_events := [] |}
      | Some (res, upResult') =>
          match err res with
          | None =>
              if (Size (sb res) =? size)%Z then
                let nSuccess := (nSuccess + 1)%Z in
                if (nSuccess =? minWritesForSuccess sto)%Z then
                  {| recv_ret := Returns (sb res, None);
                     recv_taken := S taken;
                     recv_events := [NotifyBlobReceived (SimpleBlobHubPartitionMap sto) b] |}
                else
                  ReceiveBlob_collect sto b size rest upResult' nSuccess nFailures e (S taken)
              else
                ReceiveBlob_collect sto b size rest upResult' nSuccess (nFailures + 1)%Z
                  (Some (sizeMismatch (Size (sb res)) size)) (S taken)
          | Some e' =>
              ReceiveBlob_collect sto b size rest upResult' nSuccess (nFailures + 1)%Z
                (Some e') (S taken)
          end
      end
  end.

(** What a worker goroutine does: how much it reads from its pipe, and the
    value it sends on [upResult]. *)
Record worker := { w_reads : reads; w_sends : sizedBlobAndError }.

(** [uploadToReplica], for a pipe that offers the bytes of [source].  The
    backend reads from the pipe; when it has returned an error the worker
    reads the rest of the pipe itself ([io.Copy(ioutil.Discard, source)]),
    and when it has returned no error the pipe is read no further. *)
Definition uploadToReplica (sto : replicaStorage) (b : BlobRefPtr) (source : Reader)
    (s : Storage) : worker :=
  let s := MaybeWrapContext s (ctx sto) in
  let up := Storage_ReceiveBlob s b (data source) in
  {| w_reads := match up_err up with
                | Some _ => ReadsAll
                | None => up_reads up
                end;
     w_sends := {| sb := up_sb up; err := up_err up |} |}.

Definition ReceiveBlob_workers (sto : replicaStorage) (b : BlobRefPtr) (source : Reader)
  : list worker :=
  uploadToReplica sto b source <$> wrappedReplicas sto.

(** [ReceiveBlob], given what the workers read from the pipes [rpipe], in
    the order of the backends, and the arrival order of the workers'
    results on [upResult]. *)
Definition ReceiveBlob (sto : replicaStorage) (b : BlobRefPtr) (source : Reader)
    (rpipe : list reads) (upResult : list sizedBlobAndError) : ReceiveBlob_run :=
  match io_Copy rpipe source with
  | Blocks => {| recv_ret := Blocks; recv_taken := 0; recv_events := [] |}
  | Returns (size, Some e) =>
      {| recv_ret := Returns (SizedBlobRef_zero, Some e); recv_taken := 0; recv_events := [] |}
  | Returns (size, None) =>
      ReceiveBlob_collect sto b size (replicas sto) (Chan upResult false) 0 0 None 0
  end.

(** ** RemoveBlobs *)

(** [removeFrom]: the value a worker sends on [errch]. *)
Definition removeFrom (sto : replicaStorage) (blobs : list BlobRefPtr) (s : Storage)
  : option error :=
  Storage_RemoveBlobs (MaybeWrapContext s (ctx sto)) blobs.

Definition RemoveBlobs_workers (sto : replicaStorage) (blobs : list BlobRefPtr)
  : list (option error) :=
  removeFrom sto blobs <$> replicas sto.

(** [for _ = range errch { if err := <-errch; err != nil { reterr = err }
    else { nSuccess++ } }]: the range clause receives a value, and the body
    receives the next one. *)
Fixpoint RemoveBlobs_range (isClosed : bool) (pend : list (option error))
    (reterr : option error) (nSuccess : Z) : outcome (option error * Z) :=
  match pend with
  | [] => if isClosed then Returns (reterr, nSuccess) else Blocks
  | _ :: [] => if isClosed then Returns (reterr, (nSuccess + 1)%Z) else Blocks
  | _ :: Some e :: pend2 => RemoveBlobs_range isClosed pend2 (Some e) nSuccess
  | _ :: None :: pend2 => RemoveBlobs_range isClosed pend2 reterr (nSuccess + 1)%Z
  end.

(** [RemoveBlobs], given the arrival order of the workers' results on
    [errch], a channel that the function makes and never closes. *)
Definition RemoveBlobs (sto : replicaStorage) (blobs : list BlobRefPtr)
    (errch : list (option error)) : outcome (option error) :=
  match RemoveBlobs_range false errch None 0 with
  | Blocks => Blocks
  | Returns (reterr, nSuccess) =>
      if (nSuccess >? 0)%Z then Returns None else Returns reterr
  end.

(** One iteration of the loop in terms of the channel operations: the range
    clause receives and drops a value, the body receives the next one. *)
Definition RemoveBlobs_iteration (errch : chan (option error))
    (reterr : option error) (nSuccess : Z)
  : outcome (option (chan (option error) * option error * Z)) :=
  match recv errch with
  | Never => Blocks
  | ChanClosed => Returns None
  | Got _ errch1 =>
      match recv_value None errch1 with
      | None => Blocks
      | Some (Some e, errch2) => Returns (Some (errch2, Some e, nSuccess))
      | Some (None, errch2) => Returns (Some (errch2, reterr, (nSuccess + 1)%Z))
      end
  end.

(** ** EnumerateBlobs *)

Definition EnumerateBlobs (sto : replicaStorage) (after : string) (limit wait : Z)
  : list SizedBlobRef * option error :=
  MergedEnumerate (wrappedReplicas sto) after limit wait.

(** ** Notions the statements below use *)

(** A worker result that counts as a successful write of [size] bytes. *)
Definition accepted (size : Z) (res : sizedBlobAndError) : Prop :=
  err res = None ∧ Size (sb res) = size.

#[global] Instance accepted_dec size res : Decision (accepted size res) :=
  ltac:(unfold accepted; apply _).

(** A backend of [wrappedReplicas], as its worker calls it, returns no
    error for the bytes of the source and reports their number. *)
Definition accepts (sto : replicaStorage) (b : BlobRefPtr) (source : Reader)
    (r : Storage) : Prop :=
  up_err (Storage_ReceiveBlob (MaybeWrapContext r (ctx sto)) b (data source)) = None ∧
  Size (up_sb (Storage_ReceiveBlob (MaybeWrapContext r (ctx sto)) b (data source)))
  = Z.of_nat (length (data source)).

#[global] Instance accepts_dec sto b source r : Decision (accepts sto b source r) :=
  ltac:(unfold accepts; apply _).

(** A backend of [wrappedReplicas], as its worker calls it, has read all the
    bytes of the source when it returns without an error. *)
Definition readsWhole (sto : replicaStorage) (b : BlobRefPtr) (source : Reader)
    (r : Storage) : Prop :=
  up_err (Storage_ReceiveBlob (MaybeWrapContext r (ctx sto)) b (data source)) = None →
  takes (up_reads (Storage_ReceiveBlob (MaybeWrapContext r (ctx sto)) b (data source)))
    (length (data source)) = true.

(** The map key of a reported value. *)
Definition refKey (x : SizedBlobRef) : string := BlobRef_String (SBlobRef x).

(** A backend whose fetch of [b] fails. *)
Definition fetchFails (b : BlobRefPtr) (r : Storage) : Prop :=
  ferr (Storage_FetchStreaming r b) ≠ None.

(** The number of accepted results in a list. *)
Definition countAccepted (size : Z) (l : list sizedBlobAndError) : Z :=
  Z.of_nat (length (filter (accepted size) l)).

(** The switch of the collection loop, as far as it records an error. *)
Definition recordError (size : Z) (e : option error) (res : sizedBlobAndError)
  : option error :=
  match err res with
  | Some e' => Some e'
  | None => if (Size (sb res) =? size)%Z then e else Some (sizeMismatch (Size (sb res)) size)
  end.

(** The run that leaves the collection loop at its end. *)
Definition finished (nSuccess nFailures : Z) (e : option error) (taken : nat)
  : ReceiveBlob_run :=
  {| recv_ret := Returns (SizedBlobRef_zero, e);
     recv_taken := taken;
     recv_events := if (nFailures >? 0)%Z then [LogPrintf nSuccess nFailures e] else [] |}.

(** The update of [retErr] in the loops of stat. *)
Definition recordStatError (acc e : option error) : option error :=
  match e with Some _ => e | None => acc end.

(** The last non-nil error in a sequence of errors, nil if there is none. *)
Definition lastRecorded (errs : list (option error)) : option error :=
  foldl recordStatError None errs.

(** The values of a stream whose key is requested and does not occur
    earlier in the stream ([seen] holds the keys met so far). *)
Fixpoint firstReports (requested seen : list string) (ch : list SizedBlobRef)
  : list SizedBlobRef :=
  match ch with
  | [] => []
  | x :: rest =>
      if decide (refKey x ∈ requested ∧ refKey x ∉ seen)
      then x :: firstReports requested (refKey x :: seen) rest
      else firstReports requested (refKey x :: seen) rest
  end.

(** [reported workers br]: some backend sent a value for reference [br]. *)
Definition reported (workers : list (list SizedBlobRef * option error))
    (br : BlobRefPtr) : Prop :=
  ∃ w x, w ∈ workers ∧ x ∈ w.1 ∧ refKey x = BlobRef_String br.

End Model.

(** The streams that senders can produce on one channel when each sender
    delivers its own values in order. *)
Inductive Interleave {A : Type} : list (list A) → list A → Prop :=
  | Interleave_nil : Interleave [] []
  | Interleave_done ls s : Interleave ls s → Interleave ([] :: ls) s
  | Interleave_send l1 x xs l2 s :
      Interleave (l1 ++ xs :: l2) s → Interleave (l1 ++ (x :: xs) :: l2) (x :: s).

(** ** Concrete backends and stores, used to run the model *)

Module Sample.

Definition ext : External :=
  {| BlobRef := string;
     BlobRef_String := λ br, match br with Some s => s | None => "<nil>" end;
     Request := unit;
     ReadCloser := list Byte.byte |}.

#[local] Existing Instance ext.

Definition bs : Blobserver :=
  {| MaybeWrapContext := λ s _, s;
     MergedEnumerate := λ _ _ _ _, ([], None) |}.

#[local] Existing Instance bs.

(** A backend that holds every blob and stores what it is sent. *)
Definition good : Storage :=
  {| Storage_FetchStreaming := λ _, {| file := Some []; fsize := 0; ferr := None |};
     Storage_StatBlobs := λ blobs _, ((λ br, {| SBlobRef := br; Size := 0 |}) <$> blobs, None);
     Storage_ReceiveBlob := λ b d,
       {| up_sb := {| SBlobRef := b; Size := Z.of_nat (length d) |}; up_err := None;
          up_reads := ReadsAll |};
     Storage_RemoveBlobs := λ _, None;
     Storage_EnumerateBlobs := λ _ _ _, ([], None) |}.

(** A backend whose every operation fails with [msg]; it refuses an upload
    without reading it. *)
Definition failing (msg : string) : Storage :=
  {| Storage_FetchStreaming := λ _, {| file := None; fsize := 0; ferr := Some msg |};
     Storage_StatBlobs := λ _ _, ([], Some msg);
     Storage_ReceiveBlob := λ _ _,
       {| up_sb := SizedBlobRef_zero; up_err := Some msg; up_reads := ReadsOnly 0 |};
     Storage_RemoveBlobs := λ _, Some msg;
     Storage_EnumerateBlobs := λ _ _ _, ([], Some msg) |}.

(** A backend that reads every upload to its end and reports success and
    50 bytes. *)
Definition short : Storage :=
  {| Storage_FetchStreaming := λ _, {| file := None; fsize := 0; ferr := Some "short" |};
     Storage_StatBlobs := λ _ _, ([], None);
     Storage_ReceiveBlob := λ b _,
       {| up_sb := {| SBlobRef := b; Size := 50 |}; up_err := None; up_reads := ReadsAll |};
     Storage_RemoveBlobs := λ _, None;
     Storage_EnumerateBlobs := λ _ _ _, ([], None) |}.

(** A backend that reads one byte of an upload and reports success and one
    byte. *)
Definition early : Storage :=
  {| Storage_FetchStreaming := λ _, {| file := None; fsize := 0; ferr := Some "early" |};
     Storage_StatBlobs := λ _ _, ([], None);
     Storage_ReceiveBlob := λ b _,
       {| up_sb := {| SBlobRef := b; Size := 1 |}; up_err := None; up_reads := ReadsOnly 1 |};
     Storage_RemoveBlobs := λ _, None;
     Storage_EnumerateBlobs := λ _ _ _, ([], None) |}.

(** A backend that stores every upload, and reports it under a reference of
    its own. *)
Definition renaming : Storage :=
  {| Storage_FetchStreaming := λ _, {| file := Some []; fsize := 0; ferr := None |};
     Storage_StatBlobs := λ _ _, ([], None);
     Storage_ReceiveBlob := λ _ d,
       {| up_sb := {| SBlobRef := Some "sha1-da39a3ee"; Size := Z.of_nat (length d) |};
          up_err := None; up_reads := ReadsAll |};
     Storage_RemoveBlobs := λ _, None;
     Storage_EnumerateBlobs := λ _ _ _, ([], None) |}.

(** A backend that holds no blob and reports no error for stat. *)
Definition empty : Storage :=
  {| Storage_FetchStreaming := λ _, {| file := None; fsize := 0; ferr := Some "no such blob" |};
     Storage_StatBlobs := λ _ _, ([], None);
     Storage_ReceiveBlob := λ b d,
       {| up_sb := {| SBlobRef := b; Size := Z.of_nat (length d) |}; up_err := None;
          up_reads := ReadsAll |};
     Storage_RemoveBlobs := λ _, None;
     Storage_EnumerateBlobs := λ _ _ _, ([], None) |}.

Definition ld : Loader :=
  {| GetStorage := λ prefix,
       if String.eqb prefix "/good/" then Ok good
       else if String.eqb prefix "/empty/" then Ok empty
       else if String.eqb prefix "/short/" then Ok short
       else if String.eqb prefix "/down/" then Ok (failing "down")
       else Err ("no handler for " +:+ prefix) |}.

Definition store (rs : list Storage) (q : Z) : replicaStorage :=
  {| SimpleBlobHubPartitionMap := 1%positive;
     replicaPrefixes := [];
     replicas := rs;
     minWritesForSuccess := q;
     ctx := None |}.

Definition blob : BlobRefPtr := Some "sha1-0beec7b5".

Definition hello : Reader :=
  {| data := [Byte.x68; Byte.x69]; readErr := None |}.

Definition broken : Reader :=
  {| data := [Byte.x68]; readErr := Some "unexpected EOF" |}.

(** One backend and a configured quorum of two. *)
Definition config12 : Obj :=
  {| cfg_backends := ["/good/"]; cfg_minWritesForSuccess := Some 2%Z; cfg_invalid := None |}.

(** Three backends and a quorum of zero. *)
Definition config30 : Obj :=
  {| cfg_backends := ["/good/"; "/empty/"; "/down/"];
     cfg_minWritesForSuccess := Some 0%Z; cfg_invalid := None |}.

(** Stores over the sample backends. *)
Definition sto_good_down_good : replicaStorage := store [good; failing "down"; good] 2.
Definition sto_down_good : replicaStorage := store [failing "down"; good] 2.
Definition sto_down_empty : replicaStorage := store [failing "down"; empty] 2.
Definition sto_empty : replicaStorage := store [empty] 1.
Definition sto_down_down : replicaStorage := store [failing "down"; failing "gone"] 2.

Definition sized (ref : string) (n : Z) : SizedBlobRef :=
  {| SBlobRef := Some ref; Size := n |}.

(** The same three backends with a quorum of three. *)
Definition sto_all_three : replicaStorage := store [good; failing "down"; good] 3.

(** The results of the sample backends for the two-byte source. *)
Definition stored : sizedBlobAndError :=
  {| sb := {| SBlobRef := blob; Size := 2 |}; err := None |}.
Definition refused : sizedBlobAndError :=
  {| sb := SizedBlobRef_zero; err := Some "down"%string |}.
Definition truncated : sizedBlobAndError :=
  {| sb := {| SBlobRef := blob; Size := 50 |}; err := None |}.

(** Three prefixes of which the second has no handler. *)
Definition config_unresolved : Obj :=
  {| cfg_backends := ["/good/"; "/nope/"; "/down/"];
     cfg_minWritesForSuccess := None; cfg_invalid := None |}.

(** A heap that holds one store. *)
Definition heap1 : gmap loc object := {[ 1%positive := ObjReplica sto_good_down_good ]}.

End Sample.

(** * The server command (server/camlistored/camlistored.go) *)

(** ** Package strings, on strings of bytes *)

(** Whether a character is in a cutset. *)
Fixpoint inCutset (c : Ascii.ascii) (cutset : string) : bool :=
  match cutset with
  | EmptyString => false
  | String d rest => Ascii.eqb c d || inCutset c rest
  end.

(** [strings.TrimLeft]: the leading characters that are in the cutset are
    removed. *)
Fixpoint strings_TrimLeft (s cutset : string) : string :=
  match s with
  | EmptyString => EmptyString
  | String c rest => if inCutset c cutset then strings_TrimLeft rest cutset else s
  end.

(** [strings.HasSuffix] *)
Fixpoint strings_HasSuffix (s suffix : string) : bool :=
  String.eqb s suffix ||
  match s with
  | EmptyString => false
  | String _ rest => strings_HasSuffix rest suffix
  end.

Fixpoint dropString (n : nat) (s : string) : string :=
  match n, s with
  | 0, _ => s
  | S n', String _ rest => dropString n' rest
  | S _, EmptyString => EmptyString
  end.

(** [strings.Replace(s, old, new, 1)]: the first occurrence of [old] is
    replaced. *)
Fixpoint strings_Replace1 (s old new : string) : string :=
  if String.prefix old s then new +:+ dropString (String.length old) s
  else match s with
       | EmptyString => EmptyString
       | String c rest => String c (strings_Replace1 rest old new)
       end.

(** [strings.Split(s, sep)[0]] for a non-empty separator: the text before
    the first occurrence of [sep], all of [s] when there is none. *)
Fixpoint strings_Split_first (s sep : string) : string :=
  if String.prefix sep s then EmptyString
  else match s with
       | EmptyString => EmptyString
       | String c rest => String c (strings_Split_first rest sep)
       end.

(** The colon and the percent sign. *)
Definition colon : Ascii.ascii := Ascii.ascii_of_nat 58.
Definition percent : Ascii.ascii := Ascii.ascii_of_nat 37.

(** The characters of codes 10, 9 and 34. *)
Definition newline : string := String (Ascii.ascii_of_nat 10) EmptyString.
Definition tab : string := String (Ascii.ascii_of_nat 9) EmptyString.
Definition dquote : string := String (Ascii.ascii_of_nat 34) EmptyString.

(** ** exitf *)

(** An argument of a formatted message. *)
Inductive arg :=
  | ArgString (s : string)
  | ArgError (e : option error).

(** The end of the process in [exitf]: what is handed to [fmt.Fprintf] for
    standard error, and the exit status. *)
Record exited := {
  stderr_pattern : string;
  stderr_args : list arg;
  exit_status : Z;
}.

Definition exitf (pattern : string) (args : list arg) : exited :=
  {| stderr_pattern :=
       if strings_HasSuffix pattern newline then pattern else pattern +:+ newline;
     stderr_args := args;
     exit_status := 1 |}.

(** ** The listen address and base URL computed in main *)

(** The lines of [main] between reading [baseURL] and the call of
    [setupTLS]: from the [-listen] flag and the configured base URL to the
    listen address and the base URL in use. *)
Definition main_addresses (flagListen baseURL : string) : string * string :=
  if String.eqb flagListen "" then
    (strings_TrimLeft (strings_TrimLeft baseURL "http://") "https://", baseURL)
  else
    (flagListen, strings_Split_first baseURL "://" +:+ "://" +:+ flagListen).

(** ** The operating system and the packages the command calls *)

Definition defCert : string := "config/selfgen_cert.pem".
Definition defKey : string := "config/selfgen_key.pem".

(** What the command asks of the system, over a type [W] of states of the
    world: [os.Stat] (of which the callers keep the error only),
    [os.IsNotExist], [os.MkdirAll], [ioutil.WriteFile], the path functions
    of package filepath, the directories of package osutil, and
    [genSelfTLS], whose key comes from the system's random source and whose
    certificate comes from package x509. *)
Class OS (W : Type) := {
  os_Stat : string → W → option error;
  os_IsNotExist : option error → bool;
  os_MkdirAll : string → Z → W → option error * W;
  ioutil_WriteFile : string → string → Z → W → option error * W;
  filepath_IsAbs : string → bool;
  filepath_Join : string → string → string;
  osutil_UserServerConfigPath : string;
  osutil_CamliConfigDir : string;
  osutil_CamliBlobRoot : string;
  genSelfTLS : string → W → option error * W;
}.

(** [serverconfig.Config], by the two methods that [setupTLS] calls. *)
Record Config := {
  OptionalString : string → string → string;
  OptionalBool : string → bool → bool;
}.

(** The template of [newDefaultConfigFile], in three parts around its two
    placeholders. *)
Definition serverConf_head : string :=
  "{" +:+ newline
  +:+ tab +:+ dquote +:+ "listen" +:+ dquote +:+ ": "
      +:+ dquote +:+ "localhost:3179" +:+ dquote +:+ "," +:+ newline
  +:+ tab +:+ dquote +:+ "TLS" +:+ dquote +:+ ": false," +:+ newline
  +:+ tab +:+ dquote +:+ "auth" +:+ dquote +:+ ": "
      +:+ dquote +:+ "userpass:camlistore:pass3179" +:+ dquote +:+ "," +:+ newline
  +:+ tab +:+ dquote +:+ "blobPath" +:+ dquote +:+ ": " +:+ dquote.

Definition serverConf_middle : string :=
  dquote +:+ "," +:+ newline
  +:+ tab +:+ dquote +:+ "secring" +:+ dquote +:+ ": " +:+ dquote.

Definition serverConf_tail : string :=
  dquote +:+ "," +:+ newline
  +:+ tab +:+ dquote +:+ "mysql" +:+ dquote +:+ ": " +:+ dquote +:+ dquote +:+ "," +:+ newline
  +:+ tab +:+ dquote +:+ "mongo" +:+ dquote +:+ ": " +:+ dquote +:+ dquote +:+ "," +:+ newline
  +:+ tab +:+ dquote +:+ "s3" +:+ dquote +:+ ": " +:+ dquote +:+ dquote +:+ "," +:+ newline
  +:+ tab +:+ dquote +:+ "replicateTo" +:+ dquote +:+ ": []" +:+ newline
  +:+ "}" +:+ newline.

Definition serverConf : string :=
  serverConf_head +:+ "%BLOBPATH%" +:+ serverConf_middle +:+ "%SECRING%"
  +:+ serverConf_tail.

Section ServerCommand.
Context {W : Type} `{OS W}.

(** [newDefaultConfigFile] *)
Definition newDefaultConfigFile (path : string) (w : W) : option error * W :=
  let blobDir := osutil_CamliBlobRoot in
  match os_MkdirAll blobDir 448 w with
  | (Some err, w1) =>
      (Some ("Could not create default blobs directory: " +:+ err), w1)
  | (None, w1) =>
      let conf := strings_Replace1 serverConf "%BLOBPATH%" blobDir in
      let secRing := filepath_Join osutil_CamliConfigDir "secring.gpg" in
      let conf := strings_Replace1 conf "%SECRING%" secRing in
      match ioutil_WriteFile path conf 448 w1 with
      | (Some err, w2) =>
          (Some ("Could not create or write default server config: " +:+ err), w2)
      | (None, w2) => (None, w2)
      end
  end.

(** What [findConfigFile] returns and does. *)
Record found := {
  absPath : string;
  find_err : option error;
  find_world : W;
  find_log : list string;
}.

(** [findConfigFile] *)
Definition findConfigFile (file : string) (w : W) : found :=
  if String.eqb file "" then
    let absPath := osutil_UserServerConfigPath in
    let err := os_Stat absPath w in
    if os_IsNotExist err then
      let '(_, w1) := os_MkdirAll osutil_CamliConfigDir 448 w in
      let '(err, w2) := newDefaultConfigFile absPath w1 in
      {| absPath := absPath; find_err := err; find_world := w2;
         find_log := ["Generating template config file " +:+ absPath] |}
    else
      {| absPath := absPath; find_err := err; find_world := w; find_log := [] |}
  else
    let absPath :=
      if filepath_IsAbs file then file
      else filepath_Join osutil_CamliConfigDir file in
    {| absPath := absPath; find_err := os_Stat absPath w; find_world := w;
       find_log := [] |}.

(** What [setupTLS] does: the exit of the process, if any, the certificate
    and key handed to [ws.SetTLS], if any, the number of calls of
    [genSelfTLS], and the state of the world at the end. *)
Record setup := {
  setup_exit : option exited;
  setup_tls : option (string * string);
  setup_generated : nat;
  setup_world : W;
}.

(** The block of [setupTLS] for the default file names: the exit, the
    calls of [genSelfTLS] and the world after it. *)
Definition setupTLS_defaults (cert key listen : string) (w : W)
  : option exited * nat * W :=
  if String.eqb cert defCert && String.eqb key defKey then
    let err1 := os_Stat cert w in
    let err2 := os_Stat key w in
    if bool_decide (err1 ≠ None) || bool_decide (err2 ≠ None) then
      if os_IsNotExist err1 || os_IsNotExist err2 then
        match genSelfTLS listen w with
        | (Some err, w1) =>
            (Some (exitf "Could not generate self-signed TLS cert: %q"
                     [ArgError (Some err)]), 1, w1)
        | (None, w1) => (None, 1, w1)
        end
      else
        (Some (exitf "Could not stat cert or key: %q, %q"
                 [ArgError err1; ArgError err2]), 0, w)
    else (None, 0, w)
  else (None, 0, w).

(** [setupTLS] *)
Definition setupTLS (config : Config) (listen : string) (w : W) : setup :=
  let cert := OptionalString config "TLSCertFile" "" in
  let key := OptionalString config "TLSKeyFile" "" in
  if negb (OptionalBool config "https" true) then
    {| setup_exit := None; setup_tls := None; setup_generated := 0; setup_world := w |}
  else if xorb (negb (String.eqb cert "")) (negb (String.eqb key "")) then
    {| setup_exit :=
         Some (exitf "TLSCertFile and TLSKeyFile must both be either present or absent" []);
       setup_tls := None; setup_generated := 0; setup_world := w |}
  else
    match setupTLS_defaults cert key listen w with
    | (Some ex, n, w1) =>
        {| setup_exit := Some ex; setup_tls := None; setup_generated := n;
           setup_world := w1 |}
    | (None, n, w1) =>
        if String.eqb cert "" && String.eqb key "" then
          match genSelfTLS listen w1 with
          | (Some err, w2) =>
              {| setup_exit :=
                   Some (exitf "Could not generate self signed creds: %q"
                           [ArgError (Some err)]);
                 setup_tls := None; setup_generated := S n; setup_world := w2 |}
          | (None, w2) =>
              {| setup_exit := None; setup_tls := Some (defCert, defKey);
                 setup_generated := S n; setup_world := w2 |}
          end
        else
          {| setup_exit := None; setup_tls := Some (cert, key);
             setup_generated := n; setup_world := w1 |}
    end.

End ServerCommand.

(** A small file system to run the command on: the files with their
    contents and the directories. *)
Module SampleOS.

Record fs := { files : gmap string string; dirs : gset string }.

Definition enoent : error := "no such file or directory".

Definition os : OS fs :=
  {| os_Stat := λ path w,
       if bool_decide (is_Some (files w !! path)) || bool_decide (path ∈ dirs w)
       then None else Some enoent;
     os_IsNotExist := λ e, bool_decide (e = Some enoent);
     os_MkdirAll := λ path _ w, (None, {| files := files w; dirs := {[path]} ∪ dirs w |});
     ioutil_WriteFile := λ path content _ w,
       (None, {| files := <[path := content]> (files w); dirs := dirs w |});
     filepath_IsAbs := λ path, String.prefix "/" path;
     filepath_Join := λ a b, a +:+ "/" +:+ b;
     osutil_UserServerConfigPath := "/home/u/.camli/serverconfig";
     osutil_CamliConfigDir := "/home/u/.camli";
     osutil_CamliBlobRoot := "/home/u/var/camlistore/blobs";
     genSelfTLS := λ _ w,
       (None, {| files := <[defKey := "key"]> (<[defCert := "cert"]> (files w));
                 dirs := dirs w |}) |}.

Definition empty : fs := {| files := ∅; dirs := ∅ |}.

(** A configuration that sets nothing. *)
Definition unset : Config :=
  {| OptionalString := λ _ def, def; OptionalBool := λ _ def, def |}.

End SampleOS.

(** * Properties *)

Section Properties.
Context `{External} `{!Blobserver}.

(** ** Allocation and the request-scoped copy *)

Lemma alloc_fresh (h : gmap loc object) o : h !! (alloc h o).2 = None.
Proof.
  unfold alloc; simpl. apply not_elem_of_dom. apply is_fresh.
Qed.

Lemma alloc_lookup (h : gmap loc object) o : (alloc h o).1 !! (alloc h o).2 = Some o.
Proof. unfold alloc; simpl. apply lookup_insert_eq. Qed.

Lemma alloc_frame (h : gmap loc object) o p :
  p ≠ (alloc h o).2 → (alloc h o).1 !! p = h !! p.
Proof. unfold alloc; simpl. intros Hp. by apply lookup_insert_ne. Qed.

Lemma WrapContext_alloc h sto s req :
  deref h sto = Some s →
  WrapContext h sto req = Some (alloc h (ObjReplica (withContext s req))).
Proof. unfold WrapContext. by intros ->. Qed.

Lemma deref_is_Some h p s : deref h p = Some s → h !! p = Some (ObjReplica s).
Proof.
  unfold deref. destruct (h !! p) as [[|s']|]; intros Heq; simplify_eq. done.
Qed.

(** C9: the value that [WrapContext] returns is a newly allocated store
    that agrees with the original in the backend list, the prefix list,
    [minWritesForSuccess] and the hub partition map, and carries the given
    request as its context; the original store and every other object are
    unchanged. *)
Theorem WrapContext_copy h sto s req :
  deref h sto = Some s →
  ∃ h' s2 s',
    WrapContext h sto req = Some (h', s2) ∧
    s2 ≠ sto ∧ h !! s2 = None ∧
    deref h' s2 = Some s' ∧
    ctx s' = req ∧
    replicas s' = replicas s ∧
    replicaPrefixes s' = replicaPrefixes s ∧
    minWritesForSuccess s' = minWritesForSuccess s ∧
    SimpleBlobHubPartitionMap s' = SimpleBlobHubPartitionMap s ∧
    deref h' sto = Some s ∧
    ∀ p, p ≠ s2 → h' !! p = h !! p.
Proof.
  intros Hs.
  set (o := ObjReplica (withContext s req)).
  exists (alloc h o).1, (alloc h o).2, (withContext s req).
  pose proof (alloc_fresh h o) as Hfresh.
  pose proof (deref_is_Some _ _ _ Hs) as Hsto.
  assert (Hne : (alloc h o).2 ≠ sto).
  { intros Heq. rewrite Heq, Hsto in Hfresh. discriminate. }
  split; [by rewrite (WrapContext_alloc _ _ _ _ Hs)|].
  split; [done|]. split; [done|].
  split; [unfold deref; by rewrite alloc_lookup|].
  do 5 (split; [done|]).
  split; [unfold deref; rewrite alloc_frame by done; by rewrite Hsto|].
  intros p Hp. by apply alloc_frame.
Qed.

(** ** FetchStreaming *)

Lemma FetchStreaming_loop_success pre r post b cur n :
  Forall (fetchFails b) pre →
  ferr (Storage_FetchStreaming r b) = None →
  FetchStreaming_loop (pre ++ r :: post) b cur n
  = (Storage_FetchStreaming r b, (n + S (length pre))%nat).
Proof.
  intros Hpre Hr. revert cur n.
  induction Hpre as [|x pre Hx _ IH]; intros cur n; simpl.
  - rewrite Hr. f_equal. lia.
  - unfold fetchFails in Hx.
    destruct (ferr (Storage_FetchStreaming x b)) eqn:Hfx; [|done].
    rewrite IH. f_equal. lia.
Qed.

Lemma FetchStreaming_loop_failure pre last b cur n :
  Forall (fetchFails b) (pre ++ [last]) →
  FetchStreaming_loop (pre ++ [last]) b cur n
  = (Storage_FetchStreaming last b, (n + S (length pre))%nat).
Proof.
  revert cur n. induction pre as [|x pre IH]; intros cur n Hall; simpl in *.
  - apply Forall_cons in Hall as [Hl _]. unfold fetchFails in Hl.
    destruct (ferr (Storage_FetchStreaming last b)); [|done]. f_equal. lia.
  - apply Forall_cons in Hall as [Hx Hall]. unfold fetchFails in Hx.
    destruct (ferr (Storage_FetchStreaming x b)); [|done].
    rewrite IH by done. f_equal. lia.
Qed.

(** C7: [FetchStreaming] returns the result of the first backend, in the
    configured order, whose fetch succeeds, after calling exactly the
    backends up to and including that one; when the fetch of every backend
    fails it returns the result, and so the error, of the last backend. *)
Theorem FetchStreaming_fallback sto b :
  (∀ pre r post,
     replicas sto = pre ++ r :: post →
     Forall (fetchFails b) pre →
     ferr (Storage_FetchStreaming r b) = None →
     FetchStreaming sto b = (Storage_FetchStreaming r b, S (length pre))) ∧
  (∀ pre last,
     replicas sto = pre ++ [last] →
     Forall (fetchFails b) (replicas sto) →
     FetchStreaming sto b = (Storage_FetchStreaming last b, length (replicas sto)) ∧
     ferr (FetchStreaming sto b).1 = ferr (Storage_FetchStreaming last b) ∧
     ferr (FetchStreaming sto b).1 ≠ None).
Proof.
  split.
  - intros pre r post Hrs Hpre Hr. unfold FetchStreaming. rewrite Hrs.
    by rewrite FetchStreaming_loop_success.
  - intros pre last Hrs Hall. unfold FetchStreaming.
    rewrite Hrs in Hall |- *.
    rewrite FetchStreaming_loop_failure by done.
    rewrite length_app; simpl.
    split; [f_equal; lia|]. split; [done|].
    apply Forall_app in Hall as [_ Hl]. by apply Forall_cons in Hl as [Hl _].
Qed.

(** C10: a fetch through the request-scoped copy of a store returns what a
    fetch through the store itself returns, whatever the request; the copy
    differs in the list that [wrappedReplicas] yields, which
    [FetchStreaming] does not read. *)
Theorem FetchStreaming_ignores_context h sto s req :
  deref h sto = Some s →
  ∃ h' s2 s',
    WrapContext h sto req = Some (h', s2) ∧
    deref h' s2 = Some s' ∧
    (∀ b, FetchStreaming s' b = FetchStreaming s b) ∧
    (∀ r, req = Some r →
       wrappedReplicas s' = (λ x, MaybeWrapContext x (Some r)) <$> replicas s).
Proof.
  intros Hs.
  set (o := ObjReplica (withContext s req)).
  exists (alloc h o).1, (alloc h o).2, (withContext s req).
  split; [by rewrite (WrapContext_alloc _ _ _ _ Hs)|].
  split; [unfold deref; by rewrite alloc_lookup|].
  split; [done|].
  intros r ->. done.
Qed.

(** ** Construction *)

Lemma resolveReplicas_length ld prefixes stos :
  resolveReplicas ld prefixes = Ok stos → length stos = length prefixes.
Proof.
  revert stos. induction prefixes as [|prefix rest IH]; intros stos; simpl.
  - by intros [= <-].
  - destruct (GetStorage ld prefix); [|done].
    destruct (resolveReplicas ld rest) as [stos'|]; [|done].
    intros [= <-]. simpl. by rewrite (IH stos').
Qed.

(** The heap and the result of [newFromConfig]: the heap gains the hub map
    and one store object, which holds the hub map and the configured
    prefixes, and the result is decided by the validation, the number of
    prefixes and the loader, in this order. *)
Lemma newFromConfig_shape h ld config :
  let hub := fresh (dom h) in
  let h1 := <[hub := ObjHubMap]> h in
  let sto := fresh (dom h1) in
  let n := Z.of_nat (length (cfg_backends config)) in
  let mws := default n (cfg_minWritesForSuccess config) in
  ∃ s,
    (newFromConfig h ld config).1 = <[sto := ObjReplica s]> h1 ∧
    SimpleBlobHubPartitionMap s = hub ∧
    replicaPrefixes s = cfg_backends config ∧
    ctx s = None ∧
    match (newFromConfig h ld config).2 with
    | Ok p =>
        p = sto ∧ cfg_invalid config = None ∧ cfg_backends config ≠ [] ∧
        resolveReplicas ld (cfg_backends config) = Ok (replicas s) ∧
        minWritesForSuccess s = (if (mws =? 0)%Z then n else mws)
    | Err e =>
        cfg_invalid config = Some e ∨
        (cfg_invalid config = None ∧ cfg_backends config = [] ∧
         e = "replica: need at least one replica"%string) ∨
        (cfg_invalid config = None ∧ cfg_backends config ≠ [] ∧
         resolveReplicas ld (cfg_backends config) = Err e)
    end.
Proof.
  unfold newFromConfig, alloc, Validate, RequiredList_backends,
    OptionalInt_minWritesForSuccess, errors_New. simpl.
  destruct (cfg_invalid config) as [e|]; simpl.
  { eexists. split; [apply insert_insert_eq|]. simpl. eauto 10. }
  destruct (cfg_backends config) as [|prefix rest] eqn:Hcfg.
  { simpl. eexists. split; [apply insert_insert_eq|]. simpl. eauto 10. }
  destruct (Z.eqb_spec (Z.of_nat (length (prefix :: rest))) 0) as [Hn|_];
    [simpl in Hn; lia|].
  destruct (resolveReplicas ld (prefix :: rest)) as [stos|e] eqn:Hres.
  - eexists. split; [by rewrite !insert_insert_eq|]. simpl. by eauto 10.
  - eexists. split; [by rewrite !insert_insert_eq|]. simpl.
    do 3 (split; [done|]). right; right. done.
Qed.

Lemma newFromConfig_frame h ld config q o :
  h !! q = Some o → (newFromConfig h ld config).1 !! q = Some o.
Proof.
  intros Hq.
  destruct (newFromConfig_shape h ld config) as (s & -> & _).
  set (hub := fresh (dom h)). set (h1 := <[hub := ObjHubMap]> h).
  assert (Hhub : h !! hub = None) by apply not_elem_of_dom, is_fresh.
  assert (Hsto : h1 !! fresh (dom h1) = None) by apply not_elem_of_dom, is_fresh.
  assert (q ≠ hub) by congruence.
  assert (Hq1 : h1 !! q = Some o) by (unfold h1; by rewrite lookup_insert_ne).
  rewrite lookup_insert_ne; [done|congruence].
Qed.

(** C3, as the code has it: a configuration with no backend is refused;
    for an accepted configuration the store has as many backends as the
    configuration names, at least one, and its [minWritesForSuccess] is the
    number of backends when the configured value is unset or zero, so it
    lies between 1 and the number of backends whenever the configured value
    is unset, zero or within that range. *)
Theorem newFromConfig_quorum h ld config :
  (cfg_backends config = [] → ∃ h' e, newFromConfig h ld config = (h', Err e)) ∧
  (∀ h' p,
     newFromConfig h ld config = (h', Ok p) →
     ∃ s, deref h' p = Some s ∧
       length (replicas s) = length (cfg_backends config) ∧
       (1 ≤ Z.of_nat (length (replicas s)))%Z ∧
       (cfg_minWritesForSuccess config = None ∨ cfg_minWritesForSuccess config = Some 0%Z →
          minWritesForSuccess s = Z.of_nat (length (replicas s))) ∧
       (∀ q, cfg_minWritesForSuccess config = Some q → q ≠ 0%Z →
          minWritesForSuccess s = q) ∧
       ((∀ q, cfg_minWritesForSuccess config = Some q →
             (0 ≤ q ≤ Z.of_nat (length (cfg_backends config)))%Z) →
          (1 ≤ minWritesForSuccess s ≤ Z.of_nat (length (replicas s)))%Z)).
Proof.
  destruct (newFromConfig_shape h ld config) as (s & Hheap & _ & _ & _ & Hres).
  split.
  - intros Hnil.
    destruct (newFromConfig h ld config) as [h' [p|e]] eqn:Hnew; simpl in *; [|eauto].
    by destruct Hres as (_ & _ & Hne & _).
  - intros h' p Hnew. rewrite Hnew in Hheap, Hres. simpl in *.
    destruct Hres as (-> & _ & Hne & Hstos & Hmws).
    apply resolveReplicas_length in Hstos.
    exists s. split; [rewrite Hheap; unfold deref; by rewrite lookup_insert_eq|].
    rewrite Hmws, Hstos. split; [done|].
    assert (Hpos : (1 ≤ Z.of_nat (length (cfg_backends config)))%Z).
    { destruct (cfg_backends config); [done|simpl; lia]. }
    split; [done|].
    destruct (cfg_minWritesForSuccess config) as [q|]; simpl.
    + destruct (Z.eqb_spec q 0) as [->|Hq].
      * split; [done|]. split; [by intros q [= <-]|]. lia.
      * split; [by intros [|[= ->]]|]. split; [by intros q' [= <-]|].
        intros Hr. specialize (Hr q eq_refl). lia.
    + destruct (Z.eqb_spec (Z.of_nat (length (cfg_backends config))) 0);
        (split; [done|]); (split; [done|]); lia.
Qed.

(** ** ReceiveBlob *)

Lemma countAccepted_cons size res l :
  countAccepted size (res :: l)
  = ((if decide (accepted size res) then 1 else 0) + countAccepted size l)%Z.
Proof.
  unfold countAccepted. rewrite filter_cons.
  destruct (decide (accepted size res)); simpl; lia.
Qed.

Lemma countAccepted_bounds size l :
  (0 ≤ countAccepted size l ≤ Z.of_nat (length l))%Z.
Proof.
  unfold countAccepted. pose proof (length_filter (accepted size) l). lia.
Qed.

Lemma finished_ext nS nS' nF nF' e taken taken' :
  nS = nS' → nF = nF' → taken = taken' →
  finished nS nF e taken = finished nS' nF' e taken'.
Proof. by intros -> -> ->. Qed.

Lemma recordError_accepted size e res :
  accepted size res → recordError size e res = e.
Proof.
  intros [Herr Hsize]. unfold recordError. rewrite Herr.
  by rewrite (proj2 (Z.eqb_eq _ _) Hsize).
Qed.

Lemma recordError_failed size e res e' :
  err res = Some e' → recordError size e res = Some e'.
Proof. intros Herr. unfold recordError. by rewrite Herr. Qed.

Lemma recordError_mismatch size e res :
  err res = None → Size (sb res) ≠ size →
  recordError size e res = Some (sizeMismatch (Size (sb res)) size).
Proof.
  intros Herr Hsize. unfold recordError. rewrite Herr.
  by rewrite (proj2 (Z.eqb_neq _ _) Hsize).
Qed.

(** The three arms of the switch. *)
Ltac switch_cases size res Herr Hsize Hacc :=
  destruct (err res) as [?e'|] eqn:Herr;
  [ assert (Hacc : ¬ accepted size res) by (intros [? _]; congruence)
  | destruct (Z.eqb_spec (Size (sb res)) size) as [Hsize|Hsize];
    [ assert (Hacc : accepted size res) by done
    | assert (Hacc : ¬ accepted size res) by (by intros [_ ?]) ] ].

(** The loop runs to its end when the quorum count is never met. *)
Lemma ReceiveBlob_collect_short sto b size rs arr nS nF e taken :
  length rs = length arr →
  (minWritesForSuccess sto ≤ nS ∨ nS + countAccepted size arr < minWritesForSuccess sto)%Z →
  ReceiveBlob_collect sto b size rs (Chan arr false) nS nF e taken
  = finished (nS + countAccepted size arr)
      (nF + (Z.of_nat (length arr) - countAccepted size arr))
      (foldl (recordError size) e arr) (taken + length arr).
Proof.
  revert rs nS nF e taken.
  induction arr as [|res arr IH]; intros [|r rs] nS nF e taken Hlen Hq; simplify_eq/=.
  - transitivity (finished nS nF e taken); [done|].
    apply finished_ext; unfold countAccepted; simpl; lia.
  - pose proof (countAccepted_bounds size arr) as Hb.
    rewrite countAccepted_cons in Hq |- *.
    unfold recv_value, recv; simpl.
    switch_cases size res Herr Hsize Hacc.
    + rewrite decide_False in Hq |- * by done.
      rewrite (recordError_failed _ _ _ _ Herr).
      rewrite IH by (done || lia). apply finished_ext; lia.
    + rewrite decide_True in Hq |- * by done.
      rewrite (recordError_accepted _ _ _ Hacc).
      rewrite (proj2 (Z.eqb_neq _ _)) by lia.
      rewrite IH by (done || lia). apply finished_ext; lia.
    + rewrite decide_False in Hq |- * by done.
      rewrite (recordError_mismatch _ _ _ Herr Hsize).
      rewrite IH by (done || lia). apply finished_ext; lia.
Qed.

(** The loop returns at the result that completes the quorum. *)
Lemma ReceiveBlob_collect_quorum sto b size rs arr nS nF e taken :
  length rs = length arr →
  (nS < minWritesForSuccess sto ≤ nS + countAccepted size arr)%Z →
  ∃ pre res post,
    arr = pre ++ res :: post ∧ accepted size res ∧
    (nS + countAccepted size pre + 1 = minWritesForSuccess sto)%Z ∧
    ReceiveBlob_collect sto b size rs (Chan arr false) nS nF e taken
    = {| recv_ret := Returns (sb res, None);
         recv_taken := taken + S (length pre);
         recv_events := [NotifyBlobReceived (SimpleBlobHubPartitionMap sto) b] |}.
Proof.
  revert rs nS nF e taken.
  induction arr as [|res arr IH]; intros [|r rs] nS nF e taken Hlen Hq; simplify_eq/=.
  - unfold countAccepted in Hq; simpl in Hq. lia.
  - rewrite countAccepted_cons in Hq.
    unfold recv_value, recv; simpl.
    switch_cases size res Herr Hsize Hacc.
    + rewrite decide_False in Hq by done.
      destruct (IH rs nS (nF + 1)%Z (Some e') (S taken))
        as (pre & res' & post & -> & Hacc' & Hcnt & ->); [done|lia|].
      exists (res :: pre), res', post. split; [done|]. split; [done|].
      rewrite countAccepted_cons, decide_False by done.
      split; [lia|]. simpl. do 2 f_equal. lia.
    + rewrite decide_True in Hq by done.
      destruct (Z.eqb_spec (nS + 1) (minWritesForSuccess sto)) as [Heq|Hne].
      * exists [], res, arr. split; [done|]. split; [done|].
        split; [unfold countAccepted; simpl; lia|]. simpl. do 2 f_equal. lia.
      * destruct (IH rs (nS + 1)%Z nF e (S taken))
          as (pre & res' & post & -> & Hacc' & Hcnt & ->); [done|lia|].
        exists (res :: pre), res', post. split; [done|]. split; [done|].
        rewrite countAccepted_cons, decide_True by done.
        split; [lia|]. simpl. do 2 f_equal. lia.
    + rewrite decide_False in Hq by done.
      destruct (IH rs nS (nF + 1)%Z (Some (sizeMismatch (Size (sb res)) size)) (S taken))
        as (pre & res' & post & -> & Hacc' & Hcnt & ->); [done|lia|].
      exists (res :: pre), res', post. split; [done|]. split; [done|].
      rewrite countAccepted_cons, decide_False by done.
      split; [lia|]. simpl. do 2 f_equal. lia.
Qed.

(** An error is recorded as soon as one result is not accepted. *)
Lemma recordError_recorded size arr e :
  (countAccepted size arr < Z.of_nat (length arr))%Z ∨ is_Some e →
  is_Some (foldl (recordError size) e arr).
Proof.
  revert e. induction arr as [|res arr IH]; intros e Hc; simpl.
  - destruct Hc as [Hc|Hc]; [|done]. unfold countAccepted in Hc; simpl in Hc. lia.
  - apply IH. rewrite countAccepted_cons in Hc.
    switch_cases size res Herr Hsize Hacc.
    + right. rewrite (recordError_failed _ _ _ _ Herr). eauto.
    + rewrite decide_True in Hc by done. rewrite (recordError_accepted _ _ _ Hacc).
      destruct Hc as [Hc|Hc]; [left; simpl in Hc; lia|by right].
    + right. rewrite (recordError_mismatch _ _ _ Herr Hsize). eauto.
Qed.

Lemma wrappedReplicas_length sto : length (wrappedReplicas sto) = length (replicas sto).
Proof. unfold wrappedReplicas. destruct (ctx sto); [by rewrite length_fmap|done]. Qed.

Lemma ReceiveBlob_workers_length sto b source :
  length (ReceiveBlob_workers sto b source) = length (replicas sto).
Proof. unfold ReceiveBlob_workers. by rewrite length_fmap, wrappedReplicas_length. Qed.

Lemma countAccepted_Permutation size l1 l2 :
  l1 ≡ₚ l2 → countAccepted size l1 = countAccepted size l2.
Proof. intros Hp. unfold countAccepted. by rewrite Hp. Qed.

(** The copy returns exactly when every pipe takes all the bytes of the
    source, and blocks exactly when some reader stops before that. *)
Lemma io_Copy_Returns writers source size e :
  io_Copy writers source = Returns (size, e)
  ↔ Forall (λ w, takes w (length (data source)) = true) writers ∧
    size = Z.of_nat (length (data source)) ∧ e = readErr source.
Proof.
  assert (Hall : forallb (λ w, takes w (length (data source))) writers = true
                 ↔ Forall (λ w, takes w (length (data source)) = true) writers).
  { induction writers as [|w writers IH]; simpl; [by split; [constructor|]|].
    by rewrite andb_true_iff, IH, Forall_cons. }
  unfold io_Copy. rewrite <- Hall.
  destruct (forallb _ writers); naive_solver.
Qed.

Lemma io_Copy_Blocks writers source :
  io_Copy writers source = Blocks
  ↔ ∃ n, ReadsOnly n ∈ writers ∧ n < length (data source).
Proof.
  unfold io_Copy. induction writers as [|w writers IH]; simpl.
  - split; [done|]. intros (n & Hn & _). by apply elem_of_nil in Hn.
  - destruct w as [|k]; simpl.
    + rewrite IH. split; intros (n & Hn & Hlt); exists n; (split; [|done]).
      * by apply list_elem_of_further.
      * by apply elem_of_cons in Hn as [|].
    + destruct (Nat.leb_spec (length (data source)) k) as [Hle|Hlt]; simpl.
      * rewrite IH. split; intros (n & Hn & Hlt); exists n; (split; [|done]).
        -- by apply list_elem_of_further.
        -- apply elem_of_cons in Hn as [[= ->]|]; [lia|done].
      * split; [|done]. intros _. exists k. split; [apply list_elem_of_here|done].
Qed.

Lemma ReceiveBlob_copied sto b source rpipe upResult size :
  io_Copy rpipe source = Returns (size, None) →
  ReceiveBlob sto b source rpipe upResult
  = ReceiveBlob_collect sto b size (replicas sto) (Chan upResult false) 0 0 None 0.
Proof. unfold ReceiveBlob. by intros ->. Qed.

Lemma ReceiveBlob_blocked sto b source rpipe upResult :
  io_Copy rpipe source = Blocks →
  ReceiveBlob sto b source rpipe upResult
  = {| recv_ret := Blocks; recv_taken := 0; recv_events := [] |}.
Proof. unfold ReceiveBlob. by intros ->. Qed.

(** The workers and the backends: a worker's pipe is read to its end
    exactly when its backend returns an error or has read the whole stream,
    and what it sends is accepted exactly when its backend accepts. *)
Lemma uploadToReplica_takes sto b source r :
  takes (w_reads (uploadToReplica sto b source r)) (length (data source)) = true
  ↔ readsWhole sto b source r.
Proof.
  unfold uploadToReplica, readsWhole; simpl.
  destruct (up_err _); simpl; naive_solver.
Qed.

Lemma uploadToReplica_accepted sto b source r :
  accepted (Z.of_nat (length (data source))) (w_sends (uploadToReplica sto b source r))
  ↔ accepts sto b source r.
Proof. done. Qed.

Lemma ReceiveBlob_workers_copy sto b source :
  (Forall (readsWhole sto b source) (wrappedReplicas sto) →
   io_Copy (w_reads <$> ReceiveBlob_workers sto b source) source
   = Returns (Z.of_nat (length (data source)), readErr source)) ∧
  (¬ Forall (readsWhole sto b source) (wrappedReplicas sto) →
   io_Copy (w_reads <$> ReceiveBlob_workers sto b source) source = Blocks).
Proof.
  assert (Hiff : Forall (λ w, takes w (length (data source)) = true)
                   (w_reads <$> ReceiveBlob_workers sto b source)
                 ↔ Forall (readsWhole sto b source) (wrappedReplicas sto)).
  { unfold ReceiveBlob_workers. rewrite <- list_fmap_compose, Forall_fmap.
    apply Forall_iff. intros r. apply uploadToReplica_takes. }
  split.
  - intros Hall. apply io_Copy_Returns. by rewrite Hiff.
  - intros Hnot.
    destruct (io_Copy (w_reads <$> ReceiveBlob_workers sto b source) source)
      as [[size e]|] eqn:Hcopy; [|done].
    apply io_Copy_Returns in Hcopy as [Hall _]. by apply Hiff in Hall.
Qed.

Lemma countAccepted_workers sto b source :
  countAccepted (Z.of_nat (length (data source)))
    (w_sends <$> ReceiveBlob_workers sto b source)
  = Z.of_nat (length (filter (accepts sto b source) (wrappedReplicas sto))).
Proof.
  unfold ReceiveBlob_workers.
  induction (wrappedReplicas sto) as [|r rs IH]; [done|].
  rewrite !fmap_cons, countAccepted_cons, IH, filter_cons.
  destruct (decide (accepted _ _)) as [Hacc|Hacc];
    destruct (decide (accepts sto b source r)) as [Hr|Hr]; simpl; try lia.
  - by apply uploadToReplica_accepted in Hacc.
  - by apply uploadToReplica_accepted in Hr.
Qed.

Lemma ReceiveBlob_workers_elem sto b source res :
  res ∈ (w_sends <$> ReceiveBlob_workers sto b source) →
  ∃ r, r ∈ wrappedReplicas sto ∧
       sb res = up_sb (Storage_ReceiveBlob (MaybeWrapContext r (ctx sto)) b (data source)) ∧
       err res = up_err (Storage_ReceiveBlob (MaybeWrapContext r (ctx sto)) b (data source)).
Proof.
  unfold ReceiveBlob_workers. rewrite <- list_fmap_compose.
  intros (r & -> & Hr)%list_elem_of_fmap. by exists r.
Qed.

(** C1, as the code has it.  The broadcast copy returns only when every
    worker has read its pipe to the end, and a worker whose backend has
    returned without an error reads no further: when some backend returns
    no error before it has read all the bytes of the source, the call never
    returns.  Otherwise, with a quorum [q] between 1 and the number of
    backends and a source that is read to its end, the call returns a nil
    error exactly when at least [q] backends return no error and report the
    number of bytes read, whatever the order in which the backends answer,
    and it returns an error exactly when fewer do.  On success the value
    returned is the one that a counted backend has returned: its size is
    the number of bytes read, and it is the given reference with that size
    when the counted backends return the reference they were given; the hub
    is notified once. *)
Theorem ReceiveBlob_quorum sto b source upResult :
  (1 ≤ minWritesForSuccess sto ≤ Z.of_nat (length (replicas sto)))%Z →
  readErr source = None →
  upResult ≡ₚ w_sends <$> ReceiveBlob_workers sto b source →
  let size := Z.of_nat (length (data source)) in
  let called r := Storage_ReceiveBlob (MaybeWrapContext r (ctx sto)) b (data source) in
  let n := Z.of_nat (length (filter (accepts sto b source) (wrappedReplicas sto))) in
  let run :=
    ReceiveBlob sto b source (w_reads <$> ReceiveBlob_workers sto b source) upResult in
  (¬ Forall (readsWhole sto b source) (wrappedReplicas sto) →
     run = {| recv_ret := Blocks; recv_taken := 0; recv_events := [] |}) ∧
  (Forall (readsWhole sto b source) (wrappedReplicas sto) →
     ((minWritesForSuccess sto ≤ n)%Z ↔ ∃ x, recv_ret run = Returns (x, None)) ∧
     ((n < minWritesForSuccess sto)%Z ↔ ∃ x e, recv_ret run = Returns (x, Some e)) ∧
     (∀ x, recv_ret run = Returns (x, None) →
        Size x = size ∧
        (∃ r, r ∈ wrappedReplicas sto ∧ accepts sto b source r ∧ up_sb (called r) = x) ∧
        recv_events run = [NotifyBlobReceived (SimpleBlobHubPartitionMap sto) b] ∧
        ((∀ r, r ∈ wrappedReplicas sto → accepts sto b source r →
               SBlobRef (up_sb (called r)) = b) →
           x = {| SBlobRef := b; Size := size |})) ∧
     (∀ x e, recv_ret run = Returns (x, Some e) →
        x = SizedBlobRef_zero ∧
        recv_taken run = length (replicas sto) ∧
        ∀ hub b', NotifyBlobReceived hub b' ∉ recv_events run)).
Proof.
  intros Hq Hsrc Hperm size called n run.
  destruct (ReceiveBlob_workers_copy sto b source) as [Hreturns Hblocks].
  split.
  { intros Hnot. by apply ReceiveBlob_blocked, Hblocks. }
  intros Hwhole. specialize (Hreturns Hwhole). rewrite Hsrc in Hreturns.
  assert (Hlen : length (replicas sto) = length upResult).
  { rewrite Hperm, length_fmap. by rewrite ReceiveBlob_workers_length. }
  assert (Hcnt : n = countAccepted size upResult).
  { unfold n. rewrite <- countAccepted_workers. symmetry.
    by apply countAccepted_Permutation. }
  assert (Hrun : run = ReceiveBlob_collect sto b size (replicas sto)
                         (Chan upResult false) 0 0 None 0).
  { by apply ReceiveBlob_copied. }
  rewrite Hcnt.
  destruct (Z.le_gt_cases (minWritesForSuccess sto) (countAccepted size upResult))
    as [Hreach|Hshort].
  - destruct (ReceiveBlob_collect_quorum sto b size (replicas sto) upResult 0 0 None 0)
      as (pre & res & post & Harr & Hacc & _ & Hres); [done|lia|].
    rewrite <- Hrun in Hres. rewrite Hres. simpl.
    destruct (ReceiveBlob_workers_elem sto b source res) as (r & Hr & Hsb & Herr).
    { rewrite <- Hperm, Harr. set_solver. }
    assert (Haccepts : accepts sto b source r).
    { destruct Hacc as [He Hs]. split; [by rewrite <- Herr|by rewrite <- Hsb]. }
    split; [split; [eauto|done]|].
    split; [split; [lia|by intros (? & ? & ?)]|].
    split; [|by intros x e [=]].
    intros x [= <-]. destruct Hacc as [He Hs].
    split; [done|]. split; [by exists r|]. split; [done|].
    intros Hecho. specialize (Hecho r Hr Haccepts).
    unfold called in Hecho. rewrite <- Hsb in Hecho.
    destruct (sb res) as [ref z]; simpl in *. by subst.
  - pose proof (ReceiveBlob_collect_short sto b size (replicas sto) upResult 0 0 None 0) as Hres.
    rewrite <- Hrun in Hres. rewrite Hres by (done || lia).
    destruct (recordError_recorded size upResult None) as [e He].
    { left. lia. }
    unfold finished; simpl. rewrite He.
    split; [split; [lia|by intros (? & [=])]|].
    split; [split; [eauto|done]|].
    split; [by intros x [=]|].
    intros x e' [= <- <-]. split; [done|]. split; [lia|].
    intros hub b'. destruct (_ >? 0)%Z; set_solver.
Qed.

Lemma recordError_all_accepted size arr e :
  Forall (accepted size) arr → foldl (recordError size) e arr = e.
Proof.
  induction 1 as [|res arr Hacc _ IH]; simpl; [done|].
  by rewrite (recordError_accepted _ _ _ Hacc).
Qed.

Lemma countAccepted_all size arr :
  Forall (accepted size) arr → countAccepted size arr = Z.of_nat (length arr).
Proof.
  intros Hall. unfold countAccepted.
  induction Hall as [|res arr Hacc _ IH]; simpl; [done|].
  rewrite filter_cons, decide_True by done. simpl. lia.
Qed.

(** C8: when the broadcast copy returns an error, which is then the error
    of a read of the source, [ReceiveBlob] returns that error with the zero
    value, takes no result from the workers, notifies nobody and logs
    nothing, whatever the workers produce. *)
Theorem ReceiveBlob_copy_error sto b source rpipe upResult size e :
  io_Copy rpipe source = Returns (size, Some e) →
  readErr source = Some e ∧
  ReceiveBlob sto b source rpipe upResult
  = {| recv_ret := Returns (SizedBlobRef_zero, Some e);
       recv_taken := 0;
       recv_events := [] |}.
Proof.
  intros Hcopy. split.
  - by apply io_Copy_Returns in Hcopy as (_ & _ & <-).
  - unfold ReceiveBlob. by rewrite Hcopy.
Qed.

(** ** StatBlobs *)

Lemma StatBlobs_need_dom_from (need : gmap string BlobRefPtr) blobs :
  dom (foldl (λ need br, <[BlobRef_String br := br]> need) need blobs)
  = dom need ∪ list_to_set (BlobRef_String <$> blobs).
Proof.
  revert need. induction blobs as [|br blobs IH]; intros need; simpl.
  - set_solver.
  - rewrite IH, dom_insert_L. set_solver.
Qed.

Lemma StatBlobs_need_dom blobs k :
  k ∈ dom (StatBlobs_need blobs) ↔ k ∈ (BlobRef_String <$> blobs).
Proof.
  unfold StatBlobs_need. rewrite StatBlobs_need_dom_from. set_solver.
Qed.

(** The funnel forwards the first reports, and the references still pending
    at its end are the requested ones that the stream never carried. *)
Lemma StatBlobs_funnel_firstReports requested ch :
  ∀ seen (need : gmap string BlobRefPtr) dest,
    (∀ k, k ∈ dom need ↔ k ∈ requested ∧ k ∉ seen) →
    (StatBlobs_funnel ch need dest).2 = dest ++ firstReports requested seen ch ∧
    (∀ k, k ∈ dom ((StatBlobs_funnel ch need dest).1)
          ↔ k ∈ requested ∧ k ∉ seen ++ (refKey <$> ch)).
Proof.
  induction ch as [|x rest IH]; intros seen need dest Hinv; simpl.
  - split; [by rewrite app_nil_r|]. intros k. rewrite Hinv, app_nil_r. done.
  - fold (refKey x).
    destruct (need !! refKey x) as [br|] eqn:Hlook.
    + assert (Hin : refKey x ∈ requested ∧ refKey x ∉ seen).
      { apply Hinv. apply elem_of_dom. eauto. }
      rewrite decide_True by done.
      destruct (IH (refKey x :: seen) (delete (refKey x) need) (dest ++ [x])) as [Hd Hn].
      { intros k. rewrite dom_delete_L, elem_of_difference, Hinv. set_solver. }
      split; [by rewrite Hd, <- app_assoc|].
      intros k. rewrite Hn. set_solver.
    + assert (Hnin : ¬ (refKey x ∈ requested ∧ refKey x ∉ seen)).
      { rewrite <- Hinv. by apply not_elem_of_dom. }
      rewrite decide_False by done.
      destruct (IH (refKey x :: seen) need dest) as [Hd Hn].
      { intros k. rewrite Hinv. split; [|set_solver].
        intros [Hr Hs]. split; [done|]. apply not_elem_of_cons. split; [|done].
        intros ->. by apply Hnin. }
      split; [done|]. intros k. rewrite Hn. set_solver.
Qed.

Lemma firstReports_requested requested seen ch :
  Forall (λ x, refKey x ∈ requested ∧ refKey x ∉ seen) (firstReports requested seen ch).
Proof.
  revert seen. induction ch as [|x rest IH]; intros seen; simpl; [done|].
  assert (Htail : Forall (λ y, refKey y ∈ requested ∧ refKey y ∉ seen)
                    (firstReports requested (refKey x :: seen) rest)).
  { eapply Forall_impl; [apply IH|]. simpl. set_solver. }
  case_decide; [by constructor|done].
Qed.

Lemma firstReports_NoDup requested seen ch :
  NoDup (refKey <$> firstReports requested seen ch).
Proof.
  revert seen. induction ch as [|x rest IH]; intros seen; simpl; [constructor|].
  case_decide; [|apply IH]. simpl. constructor; [|apply IH].
  intros Hin. apply list_elem_of_fmap in Hin as (y & Hy & Hin).
  pose proof (firstReports_requested requested (refKey x :: seen) rest) as Hall.
  rewrite Forall_forall in Hall. destruct (Hall y Hin) as [_ Hns].
  rewrite Hy in Hns. set_solver.
Qed.

Lemma firstReports_sublist requested seen ch :
  firstReports requested seen ch `sublist_of` ch.
Proof.
  revert seen. induction ch as [|x rest IH]; intros seen; simpl; [done|].
  case_decide; [by apply sublist_skip|by apply sublist_cons].
Qed.

Lemma firstReports_first requested seen pre x post :
  refKey x ∈ requested → refKey x ∉ seen → refKey x ∉ (refKey <$> pre) →
  x ∈ firstReports requested seen (pre ++ x :: post).
Proof.
  revert seen. induction pre as [|y pre IH]; intros seen Hr Hs Hp; simpl.
  - rewrite decide_True by done. set_solver.
  - rewrite fmap_cons in Hp. apply not_elem_of_cons in Hp as [Hne Hp].
    assert (x ∈ firstReports requested (refKey y :: seen) (pre ++ x :: post)).
    { apply IH; [done| |done]. set_solver. }
    case_decide; set_solver.
Qed.

Lemma StatBlobs_dest sto blobs wait ch errch :
  stat_dest (StatBlobs sto blobs wait ch errch)
  = firstReports (BlobRef_String <$> blobs) [] ch.
Proof.
  unfold StatBlobs.
  destruct (StatBlobs_funnel_firstReports (BlobRef_String <$> blobs) ch []
              (StatBlobs_need blobs) []) as [Hd _].
  { intros k. rewrite StatBlobs_need_dom. set_solver. }
  destruct (StatBlobs_funnel ch (StatBlobs_need blobs) []); simpl in *. done.
Qed.

(** C5: what [StatBlobs] forwards to [dest] are the values of the stream
    whose reference is requested and was not reported earlier in the
    stream: every forwarded value is requested, no reference is forwarded
    twice, the forwarded values keep the order of the stream, and the first
    report of a requested reference is forwarded. *)
Theorem StatBlobs_forwards sto blobs wait ch errch :
  let dest := stat_dest (StatBlobs sto blobs wait ch errch) in
  dest = firstReports (BlobRef_String <$> blobs) [] ch ∧
  Forall (λ x, refKey x ∈ (BlobRef_String <$> blobs)) dest ∧
  NoDup (refKey <$> dest) ∧
  dest `sublist_of` ch ∧
  (∀ pre x post,
     ch = pre ++ x :: post →
     refKey x ∈ (BlobRef_String <$> blobs) →
     refKey x ∉ (refKey <$> pre) →
     x ∈ dest ∧ ∀ y, y ∈ dest → refKey y = refKey x → y = x) ∧
  (∀ x, x ∈ ch → refKey x ∉ (BlobRef_String <$> blobs) → x ∉ dest).
Proof.
  intros dest. unfold dest. rewrite StatBlobs_dest.
  set (requested := BlobRef_String <$> blobs).
  pose proof (firstReports_requested requested [] ch) as Hreq.
  pose proof (firstReports_NoDup requested [] ch) as Hnd.
  split; [done|].
  split; [eapply Forall_impl; [exact Hreq|]; by intros x [? _]|].
  split; [done|].
  split; [apply firstReports_sublist|].
  split.
  - intros pre x post -> Hr Hp.
    assert (Hx : x ∈ firstReports requested [] (pre ++ x :: post)).
    { apply firstReports_first; [done|set_solver|done]. }
    split; [done|]. intros y Hy Hk.
    apply list_elem_of_lookup in Hx as [i Hi].
    apply list_elem_of_lookup in Hy as [j Hj].
    assert (i = j) as ->; [|congruence].
    eapply NoDup_lookup; [exact Hnd| |]; rewrite list_lookup_fmap.
    + by rewrite Hi.
    + rewrite Hj. simpl. by rewrite Hk.
  - intros x _ Hnr Hx. rewrite Forall_forall in Hreq. by destruct (Hreq x Hx).
Qed.

Lemma Interleave_Permutation {A} (ls : list (list A)) s :
  Interleave ls s → s ≡ₚ mjoin ls.
Proof.
  induction 1 as [|ls s _ IH|l1 x xs l2 s _ IH]; simpl; [done|done|].
  rewrite IH, !join_app. simpl. by rewrite Permutation_middle.
Qed.

Lemma Interleave_elem_of {A} (ls : list (list A)) s x :
  Interleave ls s → x ∈ s ↔ ∃ l, l ∈ ls ∧ x ∈ l.
Proof.
  intros Hil. rewrite (Interleave_Permutation _ _ Hil), list_elem_of_join.
  naive_solver.
Qed.

Lemma StatBlobs_collect_all rs errch retErr :
  length rs = length errch →
  StatBlobs_collect rs (Chan errch false) retErr
  = Returns (foldl recordStatError retErr errch).
Proof.
  revert rs retErr. induction errch as [|e errch IH]; intros [|r rs] retErr Hlen;
    simplify_eq/=; [done|].
  unfold recv_value, recv; simpl. destruct e; by rewrite IH.
Qed.

Lemma foldl_recordStatError_None errs acc :
  foldl recordStatError acc errs = None ↔ acc = None ∧ Forall (.= None) errs.
Proof.
  revert acc. induction errs as [|e errs IH]; intros acc; simpl.
  - split; [by intros ->|by intros [-> _]].
  - rewrite IH, Forall_cons. destruct e; simpl; naive_solver.
Qed.

Lemma foldl_recordStatError_Some errs acc e :
  foldl recordStatError acc errs = Some e → acc = Some e ∨ Some e ∈ errs.
Proof.
  revert acc. induction errs as [|e' errs IH]; intros acc; simpl; [by left|].
  intros [Hacc|Hin]%IH; [|set_solver].
  destruct e'; simpl in Hacc; [right; set_solver|by left].
Qed.

Lemma StatBlobs_pending sto blobs wait ch errch k :
  k ∈ dom (stat_need (StatBlobs sto blobs wait ch errch))
  ↔ k ∈ (BlobRef_String <$> blobs) ∧ k ∉ (refKey <$> ch).
Proof.
  unfold StatBlobs.
  destruct (StatBlobs_funnel_firstReports (BlobRef_String <$> blobs) ch []
              (StatBlobs_need blobs) []) as [_ Hn].
  { intros k'. rewrite StatBlobs_need_dom. set_solver. }
  destruct (StatBlobs_funnel ch (StatBlobs_need blobs) []); simpl in *.
  by rewrite Hn.
Qed.

Lemma StatBlobs_ret sto blobs wait ch errch :
  length errch = length (replicas sto) →
  stat_ret (StatBlobs sto blobs wait ch errch)
  = if decide (size (stat_need (StatBlobs sto blobs wait ch errch)) = 0)
    then Returns None else Returns (lastRecorded errch).
Proof.
  intros Hlen. unfold StatBlobs.
  destruct (StatBlobs_funnel ch (StatBlobs_need blobs) []); simpl.
  by rewrite StatBlobs_collect_all.
Qed.

(** C6, as the code has it: [StatBlobs] returns nil when every requested
    reference was reported by some backend, whatever errors the backends
    returned; otherwise it returns the last error that arrived from the
    backends, which is nil when no backend returned an error. *)
Theorem StatBlobs_result sto blobs wait ch errch :
  let workers := StatBlobs_workers sto blobs wait in
  Interleave workers.*1 ch →
  errch ≡ₚ workers.*2 →
  let ret := stat_ret (StatBlobs sto blobs wait ch errch) in
  ((∀ br, br ∈ blobs → reported workers br) → ret = Returns None) ∧
  (¬ (∀ br, br ∈ blobs → reported workers br) → ret = Returns (lastRecorded errch)) ∧
  (lastRecorded errch = None ↔ ∀ w, w ∈ workers → w.2 = None) ∧
  (∀ e, lastRecorded errch = Some e → ∃ w, w ∈ workers ∧ w.2 = Some e).
Proof.
  intros workers Hch Herr ret.
  assert (Hlen : length errch = length (replicas sto)).
  { rewrite Herr. unfold workers, StatBlobs_workers.
    by rewrite !length_fmap, wrappedReplicas_length. }
  assert (Hrep : ∀ br, reported workers br ↔ BlobRef_String br ∈ (refKey <$> ch)).
  { intros br. unfold reported. rewrite list_elem_of_fmap. split.
    - intros (w & x & Hw & Hx & Hk). exists x. split; [done|].
      apply (Interleave_elem_of _ _ _ Hch). exists w.1. split; [|done].
      apply list_elem_of_fmap. eauto.
    - intros (x & Hk & Hx). apply (Interleave_elem_of _ _ _ Hch) in Hx as (l & Hl & Hx).
      apply list_elem_of_fmap in Hl as (w & -> & Hw). eauto. }
  unfold ret. rewrite StatBlobs_ret by done.
  set (need := stat_need (StatBlobs sto blobs wait ch errch)).
  assert (Hneed : size need = 0 ↔ ∀ br, br ∈ blobs → reported workers br).
  { rewrite map_size_empty_iff, <- dom_empty_iff_L. split.
    - intros Hdom br Hbr. apply Hrep.
      destruct (decide (BlobRef_String br ∈ (refKey <$> ch))) as [|Hnin]; [done|].
      assert (BlobRef_String br ∈ dom need) as Hin; [|set_solver].
      apply StatBlobs_pending. split; [|done]. apply list_elem_of_fmap. eauto.
    - intros Hall. apply set_eq. intros k. unfold need. rewrite StatBlobs_pending.
      split; [|set_solver]. intros [Hk Hn]. exfalso. apply Hn.
      apply list_elem_of_fmap in Hk as (br & -> & Hbr). by apply Hrep, Hall. }
  split; [intros Hall; rewrite decide_True; [done|by apply Hneed]|].
  split; [intros Hnot; rewrite decide_False; [done|by rewrite Hneed]|].
  unfold lastRecorded. split.
  - rewrite foldl_recordStatError_None, Herr, Forall_forall. split.
    + intros [_ Hall] w Hw. apply Hall. apply list_elem_of_fmap. eauto.
    + intros Hall. split; [done|]. intros e (w & -> & Hw)%list_elem_of_fmap. by apply Hall.
  - intros e [?|Hin]%foldl_recordStatError_Some; [done|].
    rewrite Herr in Hin. apply list_elem_of_fmap in Hin as (w & Hw & Hin). eauto.
Qed.

(** ** RemoveBlobs *)

(** The recursive definition of the loop is the iteration of the channel
    operations. *)
Lemma RemoveBlobs_range_iteration isClosed pend reterr nSuccess :
  RemoveBlobs_range isClosed pend reterr nSuccess
  = match RemoveBlobs_iteration (Chan pend isClosed) reterr nSuccess with
    | Blocks => Blocks
    | Returns None => Returns (reterr, nSuccess)
    | Returns (Some (errch', reterr', nSuccess')) =>
        RemoveBlobs_range isClosed (pending errch') reterr' nSuccess'
    end.
Proof.
  unfold RemoveBlobs_iteration, recv_value, recv.
  destruct pend as [|x [|[e|] pend]]; simpl; destruct isClosed; done.
Qed.

Lemma RemoveBlobs_range_open pend :
  (∀ reterr nSuccess, RemoveBlobs_range false pend reterr nSuccess = Blocks) ∧
  (∀ x reterr nSuccess, RemoveBlobs_range false (x :: pend) reterr nSuccess = Blocks).
Proof.
  induction pend as [|e pend [IH0 IH1]]; [done|].
  split; [done|]. intros x reterr nSuccess. simpl. destruct e; apply IH0.
Qed.

(** C2, as the code has it: [RemoveBlobs] does not return.  Its loop ranges
    over a channel that nothing closes, so once the results of all backends
    are received the next receive waits for ever, for every number of
    backends and every order of their results. *)
Theorem RemoveBlobs_never_returns sto blobs errch :
  RemoveBlobs sto blobs errch = Blocks.
Proof.
  unfold RemoveBlobs. by rewrite (proj1 (RemoveBlobs_range_open errch)).
Qed.

(** * Further properties of the replica store *)

(** ** Construction: which configurations are accepted, and what is built *)

Lemma resolveReplicas_Ok ld prefixes stos :
  resolveReplicas ld prefixes = Ok stos
  ↔ Forall2 (λ prefix r, GetStorage ld prefix = Ok r) prefixes stos.
Proof.
  revert stos. induction prefixes as [|prefix rest IH]; intros stos; simpl.
  - split; [intros [= <-]; constructor|by intros ->%Forall2_nil_inv_l].
  - split.
    + destruct (GetStorage ld prefix) as [r|] eqn:Hr; [|done].
      destruct (resolveReplicas ld rest) as [stos'|]; [|done].
      intros [= <-]. constructor; [done|]. by apply IH.
    + intros (r & stos' & Hr & Hrest & ->)%Forall2_cons_inv_l.
      rewrite Hr. apply IH in Hrest. by rewrite Hrest.
Qed.

Lemma resolveReplicas_Err ld prefixes e :
  resolveReplicas ld prefixes = Err e
  ↔ ∃ pre prefix post,
      prefixes = pre ++ prefix :: post ∧
      Forall (λ q, ∃ r, GetStorage ld q = Ok r) pre ∧
      GetStorage ld prefix = Err e.
Proof.
  revert e. induction prefixes as [|prefix rest IH]; intros e; simpl.
  - split; [done|]. intros (pre & ? & ? & Heq & _). by destruct pre.
  - assert (Hsplit :
      (∃ pre p post, prefix :: rest = pre ++ p :: post ∧
         Forall (λ q, ∃ r, GetStorage ld q = Ok r) pre ∧ GetStorage ld p = Err e)
      ↔ GetStorage ld prefix = Err e ∨
        ((∃ r, GetStorage ld prefix = Ok r) ∧ resolveReplicas ld rest = Err e)).
    { rewrite IH. split.
      - intros ([|q pre] & p & post & Heq & Hpre & Hp); simplify_eq/=; [by left|].
        right. apply Forall_cons in Hpre as [Hq Hpre]. split; [done|]. eauto 6.
      - intros [Hp|[Hr (pre & p & post & -> & Hpre & Hp)]].
        + exists [], prefix, rest. done.
        + exists (prefix :: pre), p, post. split; [done|]. split; [by constructor|done]. }
    rewrite Hsplit.
    destruct (GetStorage ld prefix) as [r|e']; [|naive_solver].
    destruct (resolveReplicas ld rest); naive_solver.
Qed.

(** X1: [newFromConfig] returns a store exactly when the configuration is
    valid, names at least one backend, and the loader resolves every
    prefix. *)
Theorem newFromConfig_accepts_iff h ld config :
  (∃ h' p, newFromConfig h ld config = (h', Ok p))
  ↔ cfg_invalid config = None ∧
    cfg_backends config ≠ [] ∧
    Forall (λ prefix, ∃ r, GetStorage ld prefix = Ok r) (cfg_backends config).
Proof.
  destruct (newFromConfig_shape h ld config) as (s & _ & _ & _ & _ & Hres).
  split.
  - intros (h' & p & Hnew). rewrite Hnew in Hres. simpl in Hres.
    destruct Hres as (_ & Hvalid & Hne & Hstos & _).
    split; [done|]. split; [done|].
    apply resolveReplicas_Ok in Hstos.
    apply Forall_forall. intros prefix Hin.
    apply list_elem_of_lookup in Hin as [i Hi].
    destruct (Forall2_lookup_l _ _ _ _ _ Hstos Hi) as (r & _ & Hr). eauto.
  - intros (Hvalid & Hne & Hall).
    destruct (newFromConfig h ld config) as [h' [p|e]] eqn:Hnew; simpl in *; [eauto|].
    destruct Hres as [Hinv|[(_ & Hnil & _)|(_ & _ & Hres)]]; [congruence|done|].
    apply resolveReplicas_Err in Hres as (pre & prefix & post & Heq & _ & Hp).
    rewrite Heq in Hall. apply Forall_app in Hall as [_ Hall].
    apply Forall_cons in Hall as [[r Hr] _]. congruence.
Qed.

(** X2: the store that [newFromConfig] returns is a new object; it holds
    the configured prefixes, the backend the loader resolved for each
    prefix, at the position of the prefix, no request context, and a hub
    map that is a new object of its own; what the heap held before is
    unchanged. *)
Theorem newFromConfig_builds h ld config h' p :
  newFromConfig h ld config = (h', Ok p) →
  ∃ s, deref h' p = Some s ∧
    h !! p = None ∧
    replicaPrefixes s = cfg_backends config ∧
    Forall2 (λ prefix r, GetStorage ld prefix = Ok r) (cfg_backends config) (replicas s) ∧
    ctx s = None ∧
    h !! SimpleBlobHubPartitionMap s = None ∧
    h' !! SimpleBlobHubPartitionMap s = Some ObjHubMap ∧
    SimpleBlobHubPartitionMap s ≠ p ∧
    ∀ q o, h !! q = Some o → h' !! q = Some o.
Proof.
  intros Hnew.
  pose proof (newFromConfig_frame h ld config) as Hframe.
  destruct (newFromConfig_shape h ld config) as (s & Hheap & Hhubmap & Hpre & Hctx & Hres).
  rewrite Hnew in Hheap, Hres, Hframe. simpl in *.
  destruct Hres as (-> & _ & _ & Hstos & _).
  apply resolveReplicas_Ok in Hstos.
  set (hub := fresh (dom h)) in *.
  set (h1 := <[hub := ObjHubMap]> h) in *.
  assert (Hhub : h !! hub = None) by apply not_elem_of_dom, is_fresh.
  assert (Hsto : h1 !! fresh (dom h1) = None) by apply not_elem_of_dom, is_fresh.
  assert (Hne : hub ≠ fresh (dom h1)).
  { intros Heq. rewrite <- Heq in Hsto. unfold h1 in Hsto.
    by rewrite lookup_insert_eq in Hsto. }
  exists s. rewrite Hhubmap, Hheap.
  split; [unfold deref; by rewrite lookup_insert_eq|].
  split; [unfold h1 in Hsto; by rewrite lookup_insert_ne in Hsto|].
  do 4 (split; [done|]).
  split; [rewrite lookup_insert_ne by done; apply lookup_insert_eq|].
  split; [done|].
  intros q o Hq. rewrite <- Hheap. by apply Hframe.
Qed.

(** X3: the errors of [newFromConfig], in the order in which the code
    tests for them: a validation error comes first, then the error for an
    empty backend list, then the error of the first prefix, in configured
    order, that the loader does not resolve.  The objects that the function
    has allocated by then are new ones: whatever the heap held before the
    call is unchanged when an error is returned. *)
Theorem newFromConfig_errors h ld config :
  (∀ e, cfg_invalid config = Some e → (newFromConfig h ld config).2 = Err e) ∧
  (cfg_invalid config = None → cfg_backends config = [] →
     (newFromConfig h ld config).2 = Err "replica: need at least one replica"%string) ∧
  (∀ pre prefix post e,
     cfg_invalid config = None →
     cfg_backends config = pre ++ prefix :: post →
     Forall (λ q, ∃ r, GetStorage ld q = Ok r) pre →
     GetStorage ld prefix = Err e →
     (newFromConfig h ld config).2 = Err e) ∧
  (∀ h' e, newFromConfig h ld config = (h', Err e) →
     ∀ q o, h !! q = Some o → h' !! q = Some o).
Proof.
  pose proof (newFromConfig_frame h ld config) as Hframe.
  destruct (newFromConfig_shape h ld config) as (s & _ & _ & _ & _ & Hres).
  destruct (newFromConfig h ld config) as [h' [p|e']] eqn:Hnew; simpl in *.
  - destruct Hres as (_ & Hvalid & Hne & Hstos & _).
    split; [intros e He; congruence|]. split; [by intros _ Hnil|].
    split; [|done].
    intros pre prefix post e _ Hcfg Hpre Hp.
    assert (Hres : resolveReplicas ld (cfg_backends config) = Err e).
    { apply resolveReplicas_Err. eauto 6. }
    congruence.
  - split; [|split; [|split]].
    + intros e He.
      destruct Hres as [Hinv|[(Hv & _)|(Hv & _)]]; congruence.
    + intros Hvalid Hnil.
      destruct Hres as [Hinv|[(_ & _ & ->)|(_ & Hne & _)]]; [congruence|done|done].
    + intros pre prefix post e Hvalid Hcfg Hpre Hp.
      assert (Hres' : resolveReplicas ld (cfg_backends config) = Err e).
      { apply resolveReplicas_Err. eauto 6. }
      destruct Hres as [Hinv|[(_ & Hnil & _)|(_ & _ & Hres)]]; [congruence| |congruence].
      rewrite Hnil in Hcfg. by destruct pre.
    + intros h'' e [= <- <-]. done.
Qed.

(** ** FetchStreaming: when it succeeds *)

Lemma FetchStreaming_loop_ferr rs b cur n :
  ferr (FetchStreaming_loop rs b cur n).1 = None
  ↔ Exists (λ r, ferr (Storage_FetchStreaming r b) = None) rs ∨ (rs = [] ∧ ferr cur = None).
Proof.
  revert cur n. induction rs as [|r rs IH]; intros cur n; simpl.
  - rewrite Exists_nil. naive_solver.
  - rewrite Exists_cons.
    destruct (ferr (Storage_FetchStreaming r b)) eqn:Hr; simpl.
    + rewrite IH. split; [|naive_solver].
      intros [?|[-> Hc]]; [by left; right|]. congruence.
    + rewrite Hr. naive_solver.
Qed.

Lemma FetchStreaming_loop_consulted rs b cur n :
  n ≤ (FetchStreaming_loop rs b cur n).2 ≤ n + length rs.
Proof.
  revert cur n. induction rs as [|r rs IH]; intros cur n; simpl; [lia|].
  destruct (ferr (Storage_FetchStreaming r b)); simpl; [|lia].
  specialize (IH (Storage_FetchStreaming r b) (S n)). lia.
Qed.

(** X4: [FetchStreaming] returns a nil error exactly when the fetch of some
    backend succeeds or the store has no backend at all; in the latter case
    it returns a nil stream with that nil error.  It never calls more
    fetches than there are backends. *)
Theorem FetchStreaming_nil_error_iff sto b :
  (ferr (FetchStreaming sto b).1 = None
   ↔ Exists (λ r, ferr (Storage_FetchStreaming r b) = None) (replicas sto)
     ∨ replicas sto = []) ∧
  (replicas sto = [] → FetchStreaming sto b = (fetched_zero, 0)) ∧
  (FetchStreaming sto b).2 ≤ length (replicas sto).
Proof.
  unfold FetchStreaming. split; [|split].
  - rewrite FetchStreaming_loop_ferr. naive_solver.
  - by intros ->.
  - pose proof (FetchStreaming_loop_consulted (replicas sto) b fetched_zero 0). lia.
Qed.

(** ** ReceiveBlob: every quorum value, early return, last error, effects *)

(** X5: the outcome of [ReceiveBlob] for every value of
    [minWritesForSuccess] and one result per backend.  When a worker stops
    reading its pipe before the end of the source the broadcast copy never
    returns, and neither does the call, which then has received nothing and
    has no effect.  When the copy has returned with a nil error: if the
    value lies between 1 and the number of accepted results the function
    returns at the result that makes the count of accepted results equal to
    it, with the value of that result, and notifies the hub; for any other
    value it takes all the results and returns the zero value with the
    error recorded last (nil if no result failed), logging the counts when
    a result failed. *)
Theorem ReceiveBlob_outcome sto b source rpipe upResult :
  length upResult = length (replicas sto) →
  (∀ n, ReadsOnly n ∈ rpipe → n < length (data source) →
     ReceiveBlob sto b source rpipe upResult
     = {| recv_ret := Blocks; recv_taken := 0; recv_events := [] |}) ∧
  (∀ size, io_Copy rpipe source = Returns (size, None) →
     let k := countAccepted size upResult in
     ((1 ≤ minWritesForSuccess sto ≤ k)%Z →
        ∃ pre res post,
          upResult = pre ++ res :: post ∧ accepted size res ∧
          (countAccepted size pre + 1 = minWritesForSuccess sto)%Z ∧
          ReceiveBlob sto b source rpipe upResult
          = {| recv_ret := Returns (sb res, None);
               recv_taken := S (length pre);
               recv_events := [NotifyBlobReceived (SimpleBlobHubPartitionMap sto) b] |}) ∧
     (¬ (1 ≤ minWritesForSuccess sto ≤ k)%Z →
        ReceiveBlob sto b source rpipe upResult
        = finished k (Z.of_nat (length upResult) - k)
            (foldl (recordError size) None upResult) (length upResult))).
Proof.
  intros Hlen. split.
  { intros n Hn Hlt. apply ReceiveBlob_blocked, io_Copy_Blocks. eauto. }
  intros size Hcopy k. subst k. rewrite (ReceiveBlob_copied _ _ _ _ _ size) by done. split.
  - intros Hq.
    destruct (ReceiveBlob_collect_quorum sto b size (replicas sto) upResult 0 0 None 0)
      as (pre & res & post & Harr & Hacc & Hcnt & Hres); [done|lia|].
    exists pre, res, post. split; [done|]. split; [done|]. split; [lia|done].
  - intros Hq. rewrite ReceiveBlob_collect_short; [|done|lia].
    apply finished_ext; lia.
Qed.

Lemma ReceiveBlob_collect_at sto b size pre res post :
  accepted size res →
  ∀ rs nS nF e taken,
    length rs = length (pre ++ res :: post) →
    (nS + countAccepted size pre + 1 = minWritesForSuccess sto)%Z →
    ReceiveBlob_collect sto b size rs (Chan (pre ++ res :: post) false) nS nF e taken
    = {| recv_ret := Returns (sb res, None);
         recv_taken := taken + S (length pre);
         recv_events := [NotifyBlobReceived (SimpleBlobHubPartitionMap sto) b] |}.
Proof.
  intros Hres.
  induction pre as [|x pre IH]; intros [|r rs] nS nF e taken Hlen Hq; simplify_eq/=.
  - unfold recv_value, recv; simpl. destruct Hres as [Herr Hsize].
    rewrite Herr, (proj2 (Z.eqb_eq _ _) Hsize).
    unfold countAccepted in Hq; simpl in Hq.
    rewrite (proj2 (Z.eqb_eq _ _)) by lia. do 2 f_equal. lia.
  - pose proof (countAccepted_bounds size pre) as Hb.
    rewrite countAccepted_cons in Hq.
    unfold recv_value, recv; simpl.
    switch_cases size x Hxerr Hxsize Hacc.
    + rewrite decide_False in Hq by done.
      rewrite IH by (done || lia). f_equal. lia.
    + rewrite decide_True in Hq by done.
      rewrite (proj2 (Z.eqb_neq _ _)) by lia.
      rewrite IH by (done || lia). f_equal. lia.
    + rewrite decide_False in Hq by done.
      rewrite IH by (done || lia). f_equal. lia.
Qed.

(** X6: once the broadcast copy has returned, the function returns as soon
    as the quorum is complete: when the result [res] is accepted and is the
    one that brings the count of accepted results to [minWritesForSuccess],
    the outcome is fixed by the results up to [res]; the results that
    arrive later, failures included, are not received and change
    nothing. *)
Theorem ReceiveBlob_returns_at_quorum sto b source rpipe size pre res post post' :
  io_Copy rpipe source = Returns (size, None) →
  length (pre ++ res :: post) = length (replicas sto) →
  length post' = length post →
  accepted size res →
  (countAccepted size pre + 1 = minWritesForSuccess sto)%Z →
  ReceiveBlob sto b source rpipe (pre ++ res :: post)
  = {| recv_ret := Returns (sb res, None);
       recv_taken := S (length pre);
       recv_events := [NotifyBlobReceived (SimpleBlobHubPartitionMap sto) b] |} ∧
  ReceiveBlob sto b source rpipe (pre ++ res :: post')
  = ReceiveBlob sto b source rpipe (pre ++ res :: post).
Proof.
  intros Hcopy Hlen Hpost Hacc Hq.
  rewrite !(ReceiveBlob_copied _ _ _ _ _ size) by done.
  rewrite !(ReceiveBlob_collect_at sto b _ pre res) by
    (done || lia || (rewrite ?length_app in *; simpl in *; lia)).
  done.
Qed.

(** X7: when the broadcast copy has returned and the quorum is not reached,
    the error returned is the one of the last result, in arrival order,
    that was not accepted: the error of the backend, or the size-mismatch
    error when the backend returned no error but another size. *)
Theorem ReceiveBlob_last_error sto b source rpipe size pre res post :
  io_Copy rpipe source = Returns (size, None) →
  length (pre ++ res :: post) = length (replicas sto) →
  ¬ accepted size res →
  Forall (accepted size) post →
  ¬ (1 ≤ minWritesForSuccess sto ≤ countAccepted size (pre ++ res :: post))%Z →
  recv_ret (ReceiveBlob sto b source rpipe (pre ++ res :: post))
  = Returns (SizedBlobRef_zero,
             Some (match err res with
                   | Some e => e
                   | None => sizeMismatch (Size (sb res)) size
                   end)).
Proof.
  intros Hcopy Hlen Hnacc Hpost Hq.
  pose proof (countAccepted_bounds size (pre ++ res :: post)) as Hb.
  rewrite (ReceiveBlob_copied _ _ _ _ _ size) by done.
  rewrite ReceiveBlob_collect_short by (done || lia).
  unfold finished; simpl. do 2 f_equal.
  rewrite foldl_app. simpl. rewrite recordError_all_accepted by done.
  switch_cases size res Herr Hsize Hacc.
  - by rewrite (recordError_failed _ _ _ _ Herr).
  - done.
  - by rewrite (recordError_mismatch _ _ _ Herr Hsize).
Qed.

Lemma ReceiveBlob_collect_effects sto b size rs c nS nF e taken :
  (0 ≤ nS)%Z → (0 ≤ nF)%Z → ((0 < nF)%Z → is_Some e) →
  let run := ReceiveBlob_collect sto b size rs c nS nF e taken in
  (recv_events run = [NotifyBlobReceived (SimpleBlobHubPartitionMap sto) b] ∧
   ∃ x, recv_ret run = Returns (x, None)) ∨
  (∃ nS' nF' e',
     recv_events run = [LogPrintf nS' nF' (Some e')] ∧
     recv_ret run = Returns (SizedBlobRef_zero, Some e') ∧
     (0 ≤ nS')%Z ∧ (0 < nF')%Z ∧
     (nS' + nF' = nS + nF + Z.of_nat (length rs))%Z) ∨
  (recv_events run = [] ∧ ∀ x, recv_ret run = Returns (x, None) → x = SizedBlobRef_zero).
Proof.
  revert c nS nF e taken.
  induction rs as [|r rs IH]; intros c nS nF e taken HnS HnF He; simpl.
  - destruct (Z.gtb_spec nF 0) as [Hpos|Hzero].
    + right; left. destruct (He Hpos) as [e' ->].
      exists nS, nF, e'. repeat split; (done || lia).
    + right; right. split; [done|]. by intros x [= <-].
  - destruct (recv_value sizedBlobAndError_zero c) as [[res c']|]; simpl.
    2:{ right; right. split; [done|]. by intros x. }
    destruct (err res) as [e'|].
    + destruct (IH c' nS (nF + 1)%Z (Some e') (S taken)) as [?|[(a & f & e'' & ? & ? & ? & ? & ?)|?]];
        [lia|lia|eauto|by left| |by right; right].
      right; left. exists a, f, e''. repeat split; (done || lia).
    + destruct (Size (sb res) =? size)%Z.
      * destruct (nS + 1 =? minWritesForSuccess sto)%Z; [left; eauto|].
        destruct (IH c' (nS + 1)%Z nF e (S taken)) as [?|[(a & f & e'' & ? & ? & ? & ? & ?)|?]];
          [lia|lia|done|by left| |by right; right].
        right; left. exists a, f, e''. repeat split; (done || lia).
      * destruct (IH c' nS (nF + 1)%Z (Some (sizeMismatch (Size (sb res)) size)) (S taken))
          as [?|[(a & f & e'' & ? & ? & ? & ? & ?)|?]];
          [lia|lia|eauto|by left| |by right; right].
        right; left. exists a, f, e''. repeat split; (done || lia).
Qed.

(** X8: the effects of [ReceiveBlob], for every store, source, reading of
    the pipes and sequence of results: either it returns a nil error and notifies its own hub of
    the given reference, once, and logs nothing; or it returns the zero
    value with an error and logs that error with the counts, which add up
    to the number of backends, at least one being a failure; or it has no
    effect at all, and then the only value it can return with a nil error
    is the zero value.  It never notifies when it returns an
    error. *)
Theorem ReceiveBlob_effects sto b source rpipe upResult :
  let run := ReceiveBlob sto b source rpipe upResult in
  (recv_events run = [NotifyBlobReceived (SimpleBlobHubPartitionMap sto) b] ∧
   ∃ x, recv_ret run = Returns (x, None)) ∨
  (∃ nS nF e,
     recv_events run = [LogPrintf nS nF (Some e)] ∧
     recv_ret run = Returns (SizedBlobRef_zero, Some e) ∧
     (0 ≤ nS)%Z ∧ (0 < nF)%Z ∧ (nS + nF = Z.of_nat (length (replicas sto)))%Z) ∨
  (recv_events run = [] ∧ ∀ x, recv_ret run = Returns (x, None) → x = SizedBlobRef_zero).
Proof.
  unfold ReceiveBlob. destruct (io_Copy rpipe source) as [[size [e|]]|].
  - right; right. split; [done|]. by intros x.
  - apply (ReceiveBlob_collect_effects sto b _ (replicas sto) _ 0 0 None 0); [lia|lia|lia].
  - right; right. split; [done|]. by intros x.
Qed.

(** ** The request-scoped copy in use *)

Lemma WrapContext_deref h sto s req h' s2 :
  deref h sto = Some s →
  WrapContext h sto req = Some (h', s2) →
  deref h' s2 = Some (withContext s req) ∧ s2 ≠ sto ∧ h !! s2 = None ∧
  ∀ q, q ≠ s2 → h' !! q = h !! q.
Proof.
  intros Hs Hw. rewrite (WrapContext_alloc _ _ _ _ Hs) in Hw.
  set (o := ObjReplica (withContext s req)) in *.
  pose proof (alloc_fresh h o) as Hfresh.
  pose proof (alloc_lookup h o) as Hlook.
  pose proof (alloc_frame h o) as Hframe.
  destruct (alloc h o) as [h0 p0]. simplify_eq/=.
  split; [unfold deref; by rewrite Hlook|].
  split; [intros ->; apply deref_is_Some in Hs; congruence|]. done.
Qed.

Lemma ReceiveBlob_collect_ext sto sto' b size rs c nS nF e taken :
  minWritesForSuccess sto' = minWritesForSuccess sto →
  SimpleBlobHubPartitionMap sto' = SimpleBlobHubPartitionMap sto →
  ReceiveBlob_collect sto' b size rs c nS nF e taken
  = ReceiveBlob_collect sto b size rs c nS nF e taken.
Proof.
  intros Hq Hhub. revert c nS nF e taken.
  induction rs as [|r rs IH]; intros c nS nF e taken; simpl; [done|].
  destruct (recv_value sizedBlobAndError_zero c) as [[res c']|]; [|done].
  rewrite Hq, Hhub. destruct (err res); rewrite !IH; done.
Qed.

(** X9: given the same reading of the pipes and the same results from the
    backends, a write and a stat
    through the request-scoped copy of a store are decided as through the
    store itself: the same quorum, the same value and error, and a
    notification of the same hub.  The request only changes what the
    backends are asked. *)
Theorem WrapContext_same_decisions h sto s req h' s2 s' :
  deref h sto = Some s →
  WrapContext h sto req = Some (h', s2) →
  deref h' s2 = Some s' →
  (∀ b source rpipe upResult,
     ReceiveBlob s' b source rpipe upResult = ReceiveBlob s b source rpipe upResult) ∧
  (∀ blobs wait ch errch,
     StatBlobs s' blobs wait ch errch = StatBlobs s blobs wait ch errch).
Proof.
  intros Hs Hw Hs'.
  destruct (WrapContext_deref _ _ _ _ _ _ Hs Hw) as [Hcopy _].
  rewrite Hcopy in Hs'. injection Hs' as <-.
  split; [|done]. intros b source rpipe upResult. unfold ReceiveBlob.
  destruct (io_Copy rpipe source) as [[size [e|]]|]; [done| |done].
  by apply ReceiveBlob_collect_ext.
Qed.

(** X10: copying a copy replaces the request instead of stacking it: the
    second copy is the original with the second request, all three stores
    are distinct objects, and the first two are unchanged.  A copy made
    with a nil request reaches the backends unwrapped. *)
Theorem WrapContext_twice h sto s r1 r2 h1 s1 h2 s2 :
  deref h sto = Some s →
  WrapContext h sto r1 = Some (h1, s1) →
  WrapContext h1 s1 r2 = Some (h2, s2) →
  deref h2 s2 = Some (withContext s r2) ∧
  deref h2 s1 = Some (withContext s r1) ∧
  deref h2 sto = Some s ∧
  NoDup [sto; s1; s2] ∧
  wrappedReplicas (withContext s None) = replicas s.
Proof.
  intros Hs Hw1 Hw2.
  destruct (WrapContext_deref _ _ _ _ _ _ Hs Hw1) as (Hs1 & Hne1 & Hf1 & Hframe1).
  destruct (WrapContext_deref _ _ _ _ _ _ Hs1 Hw2) as (Hs2 & Hne2 & Hf2 & Hframe2).
  assert (Hsto1 : deref h1 sto = Some s).
  { unfold deref in *. rewrite Hframe1 by done. done. }
  assert (Hne3 : s2 ≠ sto).
  { intros ->. unfold deref in Hsto1. by rewrite Hf2 in Hsto1. }
  split; [done|].
  split; [unfold deref in *; by rewrite Hframe2|].
  split; [unfold deref in *; by rewrite Hframe2|].
  split; [|done].
  repeat constructor; set_solver.
Qed.

(** ** StatBlobs: empty requests, bookkeeping, errors *)

Lemma firstReports_keys requested seen ch k :
  k ∈ (refKey <$> firstReports requested seen ch)
  ↔ k ∈ requested ∧ (k ∉ seen) ∧ k ∈ (refKey <$> ch).
Proof.
  revert seen. induction ch as [|x rest IH]; intros seen; simpl.
  - set_solver.
  - case_decide as Hx; rewrite ?fmap_cons, ?elem_of_cons, IH, ?elem_of_cons.
    + destruct (decide (k = refKey x)) as [->|]; [naive_solver|set_solver].
    + destruct (decide (k = refKey x)) as [->|]; [|set_solver].
      split; [set_solver|]. intros (Hr & Hs & _). exfalso. by apply Hx.
Qed.

(** X11: a stat of no reference forwards nothing and returns nil once
    every backend has answered, whatever the backends report and whatever
    errors they return. *)
Theorem StatBlobs_empty_request sto wait ch errch :
  length errch = length (replicas sto) →
  stat_dest (StatBlobs sto [] wait ch errch) = [] ∧
  stat_ret (StatBlobs sto [] wait ch errch) = Returns None.
Proof.
  intros Hlen.
  assert (Hd : stat_dest (StatBlobs sto [] wait ch errch) = []).
  { rewrite StatBlobs_dest. simpl.
    apply elem_of_nil_inv. intros x Hx.
    pose proof (firstReports_requested [] [] ch) as Hall.
    rewrite Forall_forall in Hall. destruct (Hall x Hx) as [Hin _]. set_solver. }
  split; [done|]. rewrite StatBlobs_ret by done.
  rewrite decide_True; [done|].
  apply map_size_empty_iff, dom_empty_iff_L, set_eq. intros k.
  rewrite StatBlobs_pending. set_solver.
Qed.

(** X12: the bookkeeping of a stat: a reference is forwarded exactly when
    it is requested and some report carries it, it is still pending at the
    end exactly when it is requested and no report carries it, and the
    number of forwarded values plus the number of pending references is
    the number of distinct requested references. *)
Theorem StatBlobs_bookkeeping sto blobs wait ch errch :
  let run := StatBlobs sto blobs wait ch errch in
  (∀ k, k ∈ (refKey <$> stat_dest run)
        ↔ k ∈ (BlobRef_String <$> blobs) ∧ k ∈ (refKey <$> ch)) ∧
  (∀ k, k ∈ dom (stat_need run)
        ↔ k ∈ (BlobRef_String <$> blobs) ∧ k ∉ (refKey <$> ch)) ∧
  length (stat_dest run) + size (stat_need run)
  = size (list_to_set (BlobRef_String <$> blobs) : gset string).
Proof.
  intros run.
  assert (Hdest : ∀ k, k ∈ (refKey <$> stat_dest run)
                       ↔ k ∈ (BlobRef_String <$> blobs) ∧ k ∈ (refKey <$> ch)).
  { intros k. unfold run. rewrite StatBlobs_dest, firstReports_keys. set_solver. }
  assert (Hneed : ∀ k, k ∈ dom (stat_need run)
                       ↔ k ∈ (BlobRef_String <$> blobs) ∧ k ∉ (refKey <$> ch)).
  { intros k. apply StatBlobs_pending. }
  split; [done|]. split; [done|].
  assert (Hnd : NoDup (refKey <$> stat_dest run)).
  { unfold run. rewrite StatBlobs_dest. apply firstReports_NoDup. }
  rewrite <- (length_fmap refKey), <- (size_list_to_set (C := gset string)) by done.
  rewrite <- (size_dom (D := gset string)), <- size_union.
  - f_equal. apply set_eq. intros k.
    rewrite elem_of_union, !elem_of_list_to_set, Hdest, Hneed.
    destruct (decide (k ∈ (refKey <$> ch))); naive_solver.
  - intros k. rewrite elem_of_list_to_set, Hdest, Hneed. naive_solver.
Qed.


Lemma foldl_recordStatError_last errs acc e :
  foldl recordStatError acc errs = Some e
  ↔ (∃ pre post, errs = pre ++ Some e :: post ∧ Forall (.= None) post)
    ∨ (acc = Some e ∧ Forall (.= None) errs).
Proof.
  revert acc. induction errs as [|x errs IH]; intros acc; simpl.
  - split; [by right|]. intros [(pre & post & Heq & _)|[-> _]]; [by destruct pre|done].
  - rewrite IH. split.
    + intros [(pre & post & -> & Hpost)|[Hacc Hall]].
      * left. by exists (x :: pre), post.
      * destruct x as [e1|]; simpl in Hacc.
        -- left. exists [], errs. by simplify_eq.
        -- right. split; [done|by constructor].
    + intros [(pre & post & Heq & Hpost)|[-> Hall]].
      * destruct pre as [|y pre]; simplify_eq/=.
        -- right. done.
        -- left. eauto.
      * apply Forall_cons in Hall as [-> Hall]. by right.
Qed.

(** X13: a stat returns an error exactly when some requested reference is
    carried by no report and some backend returned an error; the error is
    then the one that arrived last, the nil results after it not
    counting. *)
Theorem StatBlobs_error_iff sto blobs wait ch errch e :
  length errch = length (replicas sto) →
  stat_ret (StatBlobs sto blobs wait ch errch) = Returns (Some e)
  ↔ (∃ br, br ∈ blobs ∧ BlobRef_String br ∉ (refKey <$> ch)) ∧
    ∃ pre post, errch = pre ++ Some e :: post ∧ Forall (.= None) post.
Proof.
  intros Hlen. rewrite StatBlobs_ret by done.
  set (need := stat_need (StatBlobs sto blobs wait ch errch)).
  assert (Hneed : size need ≠ 0
                  ↔ ∃ br, br ∈ blobs ∧ BlobRef_String br ∉ (refKey <$> ch)).
  { rewrite map_size_empty_iff, <- dom_empty_iff_L. split.
    - intros (k & Hk)%set_choose_L. apply StatBlobs_pending in Hk as [Hr Hn].
      apply list_elem_of_fmap in Hr as (br & -> & Hbr). eauto.
    - intros (br & Hbr & Hn) Hempty.
      assert (BlobRef_String br ∈ dom need) as Hin; [|set_solver].
      apply StatBlobs_pending. split; [|done]. apply list_elem_of_fmap. eauto. }
  assert (Hlast : lastRecorded errch = Some e
                  ↔ ∃ pre post, errch = pre ++ Some e :: post ∧ Forall (.= None) post).
  { unfold lastRecorded. rewrite foldl_recordStatError_last. naive_solver. }
  rewrite <- Hneed, <- Hlast.
  case_decide as Hsize; split.
  - done.
  - intros [Hn _]. done.
  - intros [= ->]. done.
  - intros [_ ->]. done.
Qed.

End Properties.

(** * The model on concrete stores *)

#[local] Existing Instance Sample.ext.
#[local] Existing Instance Sample.bs.

(** A configuration that names one backend and asks for two successful
    writes is accepted, and the store it yields has a quorum
    above its number of backends. *)
Lemma newFromConfig_accepts_excess_quorum :
  ∃ h' p s,
    newFromConfig ∅ Sample.ld Sample.config12 = (h', Ok p) ∧
    deref h' p = Some s ∧
    length (replicas s) = 1 ∧
    minWritesForSuccess s = 2%Z ∧
    ¬ (1 ≤ minWritesForSuccess s ≤ Z.of_nat (length (replicas s)))%Z.
Proof.
  eexists _, _, _. split; [reflexivity|].
  split; [unfold deref, alloc; simpl; by rewrite lookup_insert_eq|].
  split; [reflexivity|]. split; [reflexivity|].
  change (¬ (1 ≤ 2 ≤ 1)%Z). lia.
Qed.

(** A configuration with three backends and a zero quorum: all three are
    needed. *)
Lemma newFromConfig_quorum_witness :
  ∃ s, deref (newFromConfig ∅ Sample.ld Sample.config30).1
         (fresh (dom (alloc ∅ ObjHubMap).1)) = Some s ∧
       length (replicas s) = 3 ∧
       minWritesForSuccess s = 3%Z.
Proof.
  destruct (newFromConfig_quorum ∅ Sample.ld Sample.config30) as [_ Hok].
  destruct (Hok _ _ eq_refl) as (s & Hs & Hlen & _ & Hzero & _ & _).
  exists s. split; [exact Hs|]. split; [exact Hlen|].
  rewrite Hzero; [by rewrite Hlen|by right].
Defined.

(** C4, on the code: the store built from a configuration with one backend
    and a quorum of two receives a blob that its backend reads to the end
    and accepts with the right size; every backend has reported, the quorum is not reached, and
    [ReceiveBlob] returns the zero value with a nil error, without an
    error of its own and without a notification. *)
Theorem ReceiveBlob_nil_error_without_quorum :
  ∃ h p s,
    newFromConfig ∅ Sample.ld Sample.config12 = (h, Ok p) ∧
    deref h p = Some s ∧
    ReceiveBlob_workers s Sample.blob Sample.hello
    = [{| w_reads := ReadsAll;
          w_sends := {| sb := {| SBlobRef := Sample.blob; Size := 2 |}; err := None |} |}] ∧
    ReceiveBlob s Sample.blob Sample.hello
      (w_reads <$> ReceiveBlob_workers s Sample.blob Sample.hello)
      (w_sends <$> ReceiveBlob_workers s Sample.blob Sample.hello)
    = {| recv_ret := Returns (SizedBlobRef_zero, None);
         recv_taken := 1;
         recv_events := [] |}.
Proof.
  eexists _, _, _. split; [reflexivity|].
  split; [unfold deref, alloc; simpl; by rewrite lookup_insert_eq|].
  split; reflexivity.
Qed.

(** A store of one backend with a quorum of one, and a source of two bytes.
    When the backend stores the blob under a reference of its own, it
    accepts, and [ReceiveBlob] succeeds with that reference and not with
    the given one.  When the backend answers after the first byte, it does
    not accept, so fewer backends than the quorum do; the broadcast copy
    waits for ever for the second byte to be read, and [ReceiveBlob]
    returns no error: it does not return. *)
Lemma ReceiveBlob_other_reference_or_no_return :
  let renamed := Sample.store [Sample.renaming] 1 in
  let stalled := Sample.store [Sample.early] 1 in
  let run s :=
    ReceiveBlob s Sample.blob Sample.hello
      (w_reads <$> ReceiveBlob_workers s Sample.blob Sample.hello)
      (w_sends <$> ReceiveBlob_workers s Sample.blob Sample.hello) in
  (1 ≤ minWritesForSuccess renamed ≤ Z.of_nat (length (replicas renamed)))%Z ∧
  (1 ≤ minWritesForSuccess stalled ≤ Z.of_nat (length (replicas stalled)))%Z ∧
  (accepts renamed Sample.blob Sample.hello Sample.renaming ∧
   recv_ret (run renamed)
   = Returns ({| SBlobRef := Some "sha1-da39a3ee"%string; Size := 2 |}, None) ∧
   recv_ret (run renamed) ≠ Returns ({| SBlobRef := Sample.blob; Size := 2 |}, None)) ∧
  (¬ accepts stalled Sample.blob Sample.hello Sample.early ∧
   recv_ret (run stalled) = Blocks ∧
   ¬ ∃ x e, recv_ret (run stalled) = Returns (x, Some e)).
Proof.
  split; [simpl; lia|]. split; [simpl; lia|]. split.
  - split; [by split|]. split; [reflexivity|]. vm_compute. discriminate.
  - split; [by intros [_ Hsize]|]. split; [reflexivity|].
    intros (x & e & Hret). vm_compute in Hret. discriminate.
Qed.

(** Two of three backends accept a two-byte blob, with a quorum of two; the
    third returns an error, and its worker reads its pipe to the end. *)
Lemma ReceiveBlob_quorum_witness :
  (1 ≤ 2 ≤ 3)%Z ∧
  ∃ x, recv_ret
         (ReceiveBlob Sample.sto_good_down_good Sample.blob Sample.hello
            (w_reads <$> ReceiveBlob_workers Sample.sto_good_down_good Sample.blob Sample.hello)
            (w_sends <$> ReceiveBlob_workers Sample.sto_good_down_good Sample.blob Sample.hello))
       = Returns (x, None).
Proof.
  assert (Hq : (1 ≤ 2 ≤ 3)%Z) by lia.
  split; [exact Hq|].
  destruct (ReceiveBlob_quorum Sample.sto_good_down_good Sample.blob Sample.hello
              (w_sends <$> ReceiveBlob_workers Sample.sto_good_down_good Sample.blob Sample.hello)
              Hq eq_refl (reflexivity _)) as [_ Hreads].
  destruct Hreads as [Hiff _].
  - constructor; [intros _; reflexivity|].
    constructor; [intros Hnil; discriminate Hnil|].
    constructor; [intros _; reflexivity|]. constructor.
  - apply Hiff. vm_compute. discriminate.
Defined.

(** The source breaks after one byte, which every worker reads. *)
Lemma ReceiveBlob_copy_error_witness :
  ReceiveBlob Sample.sto_good_down_good Sample.blob Sample.broken
    (w_reads <$> ReceiveBlob_workers Sample.sto_good_down_good Sample.blob Sample.broken) []
  = {| recv_ret := Returns (SizedBlobRef_zero, Some "unexpected EOF"%string);
       recv_taken := 0;
       recv_events := [] |}.
Proof.
  apply (ReceiveBlob_copy_error Sample.sto_good_down_good Sample.blob Sample.broken
           (w_reads <$> ReceiveBlob_workers Sample.sto_good_down_good Sample.blob Sample.broken)
           [] 1).
  reflexivity.
Defined.

(** The first backend is down and the second holds the blob; both backends
    of another store fail. *)
Lemma FetchStreaming_fallback_witness :
  FetchStreaming Sample.sto_down_good Sample.blob
    = (Storage_FetchStreaming Sample.good Sample.blob, 2) ∧
  FetchStreaming Sample.sto_down_down Sample.blob
    = (Storage_FetchStreaming (Sample.failing "gone") Sample.blob, 2).
Proof.
  split.
  - apply (proj1 (FetchStreaming_fallback Sample.sto_down_good Sample.blob)
             [Sample.failing "down"] Sample.good []); [reflexivity| |reflexivity].
    repeat constructor. discriminate.
  - apply (proj2 (FetchStreaming_fallback Sample.sto_down_down Sample.blob)
             [Sample.failing "down"] (Sample.failing "gone")); [reflexivity|].
    repeat constructor; discriminate.
Defined.

(** The copy of the only store of a heap. *)
Lemma WrapContext_copy_witness :
  ∃ h' s2,
    WrapContext Sample.heap1 1%positive (Some ()) = Some (h', s2) ∧
    s2 ≠ 1%positive ∧
    deref h' 1%positive = Some Sample.sto_good_down_good.
Proof.
  destruct (WrapContext_copy Sample.heap1 1%positive Sample.sto_good_down_good (Some ())
              eq_refl) as (h' & s2 & s' & Hw & Hne & _ & _ & _ & _ & _ & _ & _ & Hsto & _).
  exists h', s2. split; [exact Hw|]. split; [exact Hne|exact Hsto].
Defined.

(** A fetch through that copy. *)
Lemma FetchStreaming_ignores_context_witness :
  ∃ h' s2 s',
    WrapContext Sample.heap1 1%positive (Some ()) = Some (h', s2) ∧
    deref h' s2 = Some s' ∧
    FetchStreaming s' Sample.blob = FetchStreaming Sample.sto_good_down_good Sample.blob.
Proof.
  destruct (FetchStreaming_ignores_context Sample.heap1 1%positive
              Sample.sto_good_down_good (Some ()) eq_refl)
    as (h' & s2 & s' & Hw & Hs' & Hfetch & _).
  exists h', s2, s'. split; [exact Hw|]. split; [exact Hs'|apply Hfetch].
Defined.

(** Two reports of the requested reference and one of another reference. *)
Lemma StatBlobs_forwards_witness :
  stat_dest (StatBlobs Sample.sto_down_good [Sample.blob] 0
               [Sample.sized "sha1-0beec7b5" 5; Sample.sized "sha1-62cdb702" 1;
                Sample.sized "sha1-0beec7b5" 7] [None; None])
  = [Sample.sized "sha1-0beec7b5" 5].
Proof.
  destruct (StatBlobs_forwards Sample.sto_down_good [Sample.blob] 0
              [Sample.sized "sha1-0beec7b5" 5; Sample.sized "sha1-62cdb702" 1;
               Sample.sized "sha1-0beec7b5" 7] [None; None]) as [Hdest _].
  rewrite Hdest. reflexivity.
Defined.

(** The only backend holds nothing and returns no error; the requested reference is reported by no backend, and
    [StatBlobs] returns nil. *)
Lemma StatBlobs_nil_without_report :
  StatBlobs_workers Sample.sto_empty [Sample.blob] 0 = [([], None)] ∧
  stat_ret (StatBlobs Sample.sto_empty [Sample.blob] 0 [] [None]) = Returns None ∧
  ¬ (stat_ret (StatBlobs Sample.sto_empty [Sample.blob] 0 [] [None]) = Returns None
     ↔ ∀ br, br ∈ [Sample.blob] →
         reported (StatBlobs_workers Sample.sto_empty [Sample.blob] 0) br).
Proof.
  split; [reflexivity|]. split; [reflexivity|].
  intros [Hall _]. specialize (Hall eq_refl Sample.blob).
  destruct Hall as (w & x & Hw & Hx & _); [set_solver|].
  change (w ∈ [([] : list SizedBlobRef, None : option error)]) in Hw.
  apply list_elem_of_singleton in Hw as ->. simpl in Hx. set_solver.
Qed.

(** One backend is down: the other one reports the reference in the first
    store and nothing in the second. *)
Lemma StatBlobs_result_witness :
  stat_ret (StatBlobs Sample.sto_down_good [Sample.blob] 0
              [Sample.sized "sha1-0beec7b5" 0] [None; Some "down"%string])
    = Returns None ∧
  stat_ret (StatBlobs Sample.sto_down_empty [Sample.blob] 0 [] [None; Some "down"%string])
    = Returns (Some "down"%string).
Proof.
  split.
  - destruct (StatBlobs_result Sample.sto_down_good [Sample.blob] 0
                [Sample.sized "sha1-0beec7b5" 0] [None; Some "down"%string])
      as [Hnil _].
    + apply (Interleave_send [[]] (Sample.sized "sha1-0beec7b5" 0) [] [] []).
      repeat constructor.
    + apply perm_swap.
    + apply Hnil. intros br Hbr. apply list_elem_of_singleton in Hbr as ->.
      exists ([Sample.sized "sha1-0beec7b5" 0], None), (Sample.sized "sha1-0beec7b5" 0).
      split; [|split; [|reflexivity]].
      * apply list_elem_of_further, list_elem_of_here.
      * apply list_elem_of_here.
  - destruct (StatBlobs_result Sample.sto_down_empty [Sample.blob] 0 []
                [None; Some "down"%string]) as (_ & Herr & _).
    + repeat constructor.
    + apply perm_swap.
    + rewrite Herr; [reflexivity|].
      intros Hall. destruct (Hall Sample.blob) as (w & x & Hw & Hx & _).
      * apply list_elem_of_here.
      * change (w ∈ [([] : list SizedBlobRef, Some "down"%string : option error);
                     ([], None)]) in Hw.
        apply elem_of_cons in Hw as [->|Hw]; [by apply elem_of_nil in Hx|].
        apply list_elem_of_singleton in Hw as ->. by apply elem_of_nil in Hx.
Defined.

(** One backend removes the blob and reports success, and [RemoveBlobs]
    does not return. *)
Example RemoveBlobs_one_backend :
  RemoveBlobs_workers Sample.sto_empty [Sample.blob] = [None] ∧
  RemoveBlobs Sample.sto_empty [Sample.blob] [None] = Blocks.
Proof. split; reflexivity. Qed.

(** * Properties of the server command *)

(** ** Strings *)

#[local] Arguments String.append !_ _ / : assert.

Lemma String_prefix_app a b : String.prefix a (a +:+ b) = true.
Proof.
  induction a as [|c a IH]; simpl; [by destruct b|].
  destruct (Ascii.ascii_dec c c); [done|congruence].
Qed.

Lemma dropString_app a b : dropString (String.length a) (a +:+ b) = b.
Proof. induction a as [|c a IH]; simpl; [by destruct b|done]. Qed.

Lemma String_app_assoc (a b c : string) : (a +:+ b) +:+ c = a +:+ (b +:+ c).
Proof. induction a as [|x a IH]; simpl; [done|by rewrite IH]. Qed.

Lemma inCutset_app c a b : inCutset c (a +:+ b) = inCutset c a || inCutset c b.
Proof.
  induction a as [|d a IH]; simpl; [done|]. rewrite IH. by rewrite orb_assoc.
Qed.

Lemma String_prefix_head c old d rest :
  Ascii.eqb c d = false → String.prefix (String c old) (String d rest) = false.
Proof.
  intros Hne. simpl. destruct (Ascii.ascii_dec c d) as [->|]; [|done].
  by rewrite Ascii.eqb_refl in Hne.
Qed.

Lemma strings_Replace1_eq s old new :
  strings_Replace1 s old new
  = if String.prefix old s then new +:+ dropString (String.length old) s
    else match s with
         | EmptyString => EmptyString
         | String c rest => String c (strings_Replace1 rest old new)
         end.
Proof. by destruct s. Qed.

Lemma strings_Split_first_eq s sep :
  strings_Split_first s sep
  = if String.prefix sep s then EmptyString
    else match s with
         | EmptyString => EmptyString
         | String c rest => String c (strings_Split_first rest sep)
         end.
Proof. by destruct s. Qed.

(** The first occurrence of a string is where it stands when its first
    character does not occur before. *)
Lemma strings_Replace1_at a c old new b :
  inCutset c a = false →
  strings_Replace1 (a +:+ String c old +:+ b) (String c old) new = a +:+ new +:+ b.
Proof.
  intros Ha. induction a as [|d a IH].
  - rewrite strings_Replace1_eq.
    change (EmptyString +:+ String c old +:+ b) with (String c old +:+ b).
    by rewrite String_prefix_app, dropString_app.
  - simpl in Ha. apply orb_false_elim in Ha as [Hcd Ha].
    rewrite strings_Replace1_eq.
    change (String d a +:+ String c old +:+ b) with (String d (a +:+ String c old +:+ b)).
    rewrite String_prefix_head by done. rewrite IH by done. done.
Qed.

Lemma strings_Split_first_at a c sep b :
  inCutset c a = false →
  strings_Split_first (a +:+ String c sep +:+ b) (String c sep) = a.
Proof.
  intros Ha. induction a as [|d a IH].
  - rewrite strings_Split_first_eq.
    change (EmptyString +:+ String c sep +:+ b) with (String c sep +:+ b).
    by rewrite String_prefix_app.
  - simpl in Ha. apply orb_false_elim in Ha as [Hcd Ha].
    rewrite strings_Split_first_eq.
    change (String d a +:+ String c sep +:+ b) with (String d (a +:+ String c sep +:+ b)).
    rewrite String_prefix_head by done. by rewrite IH.
Qed.

Lemma strings_Split_first_whole s c sep :
  inCutset c s = false → strings_Split_first s (String c sep) = s.
Proof.
  induction s as [|d s IH]; [done|]. simpl inCutset.
  intros [Hcd Hs]%orb_false_elim.
  rewrite strings_Split_first_eq.
  rewrite String_prefix_head by done. by rewrite IH.
Qed.

Lemma strings_TrimLeft_twice s c1 c2 :
  (∀ c, inCutset c c1 = true → inCutset c c2 = true) →
  strings_TrimLeft (strings_TrimLeft s c1) c2 = strings_TrimLeft s c2.
Proof.
  intros Hsub. induction s as [|c s IH]; [done|]. simpl.
  destruct (inCutset c c1) eqn:H1.
  - by rewrite (Hsub c H1).
  - done.
Qed.

Lemma strings_TrimLeft_head s cutset :
  match strings_TrimLeft s cutset with
  | String c _ => inCutset c cutset = false
  | EmptyString => True
  end.
Proof.
  induction s as [|c s IH]; simpl; [done|].
  destruct (inCutset c cutset) eqn:Hc; [done|]. simpl. done.
Qed.

Lemma strings_TrimLeft_id s cutset :
  strings_TrimLeft s cutset = s
  ↔ match s with String c _ => inCutset c cutset = false | EmptyString => True end.
Proof.
  destruct s as [|c s]; simpl; [done|].
  destruct (inCutset c cutset) eqn:Hc; [|done].
  split; [|done]. intros Heq.
  assert (Hlen : ∀ t, String.length (strings_TrimLeft t cutset) ≤ String.length t).
  { induction t as [|d t IHt]; simpl; [lia|]. destruct (inCutset d cutset); simpl; lia. }
  specialize (Hlen s). rewrite Heq in Hlen. simpl in Hlen. lia.
Qed.

Lemma strings_HasSuffix_app p s : strings_HasSuffix (p +:+ s) s = true.
Proof.
  induction p as [|c p IH]; simpl.
  - destruct s; simpl; [done|]. by rewrite Ascii.eqb_refl, String.eqb_refl.
  - rewrite IH. apply orb_true_r.
Qed.

(** ** exitf *)

(** X14: the pattern that [exitf] hands to [fmt.Fprintf] always ends in a
    newline: it is the given pattern when that ends in a newline and the
    pattern followed by a newline otherwise, so passing a message through
    twice adds nothing; the arguments are passed on unchanged and the exit
    status is 1. *)
Theorem exitf_newline pattern args :
  strings_HasSuffix (stderr_pattern (exitf pattern args)) newline = true ∧
  (strings_HasSuffix pattern newline = true →
     stderr_pattern (exitf pattern args) = pattern) ∧
  (strings_HasSuffix pattern newline = false →
     stderr_pattern (exitf pattern args) = pattern +:+ newline) ∧
  exitf (stderr_pattern (exitf pattern args)) args = exitf pattern args ∧
  stderr_args (exitf pattern args) = args ∧
  exit_status (exitf pattern args) = 1%Z.
Proof.
  unfold exitf; simpl.
  destruct (strings_HasSuffix pattern newline) eqn:Hs.
  - rewrite Hs. done.
  - rewrite strings_HasSuffix_app. done.
Qed.

(** ** The listen address and the base URL *)

(** X15: without a [-listen] flag the listen address is the configured base
    URL without its leading characters among h, t, p, s, colon and slash:
    the two calls of [strings.TrimLeft] remove characters of a set, not a
    prefix.  After the scheme, the host and port are kept whole exactly
    when they are empty or begin with a character outside that set; the
    base URL itself is unchanged. *)
Theorem main_listen_trims baseURL hostport :
  (main_addresses "" baseURL).1 = strings_TrimLeft baseURL "https://" ∧
  (main_addresses "" baseURL).2 = baseURL ∧
  (main_addresses "" ("http://" +:+ hostport)).1 = strings_TrimLeft hostport "https://" ∧
  (main_addresses "" ("https://" +:+ hostport)).1 = strings_TrimLeft hostport "https://" ∧
  (strings_TrimLeft hostport "https://" = hostport
   ↔ match hostport with
     | String c _ => inCutset c "https://" = false
     | EmptyString => True
     end) ∧
  match (main_addresses "" baseURL).1 with
  | String c _ => inCutset c "https://" = false
  | EmptyString => True
  end.
Proof.
  assert (Htwice : ∀ s, strings_TrimLeft (strings_TrimLeft s "http://") "https://"
                        = strings_TrimLeft s "https://").
  { intros s. apply strings_TrimLeft_twice. intros c. simpl.
    intros Hc. repeat (apply orb_prop in Hc as [->|Hc]; [by rewrite ?orb_true_r|]).
    done. }
  unfold main_addresses; simpl. rewrite !Htwice.
  split; [done|]. split; [done|]. split; [done|]. split; [done|].
  split; [apply strings_TrimLeft_id|apply strings_TrimLeft_head].
Qed.

(** X16: with a [-listen] flag the listen address is the flag, and the base
    URL becomes the text before the first "://" of the configured one,
    then "://", then the flag: for a configured [scheme://rest] with no
    colon in the scheme the scheme is kept and all of [rest] is replaced; a
    configured base URL without a colon becomes the scheme as a whole. *)
Theorem main_listen_flag flagListen scheme rest :
  flagListen ≠ EmptyString →
  inCutset colon scheme = false →
  main_addresses flagListen (scheme +:+ "://" +:+ rest)
  = (flagListen, scheme +:+ "://" +:+ flagListen) ∧
  main_addresses flagListen scheme
  = (flagListen, scheme +:+ "://" +:+ flagListen).
Proof.
  intros Hflag Hscheme. unfold main_addresses.
  destruct (String.eqb_spec flagListen "") as [|_]; [done|].
  pose proof (strings_Split_first_at scheme colon "//" rest Hscheme) as Hat.
  pose proof (strings_Split_first_whole scheme colon "//" Hscheme) as Hwhole.
  change (String colon "//") with "://"%string in Hat, Hwhole.
  by rewrite Hat, Hwhole.
Qed.

(** ** The configuration file *)

Section ServerCommandProperties.
Context {W : Type} `{OS W}.

Lemma serverConf_filled blobDir secRing :
  inCutset percent blobDir = false →
  strings_Replace1 (strings_Replace1 serverConf "%BLOBPATH%" blobDir) "%SECRING%" secRing
  = serverConf_head +:+ blobDir +:+ serverConf_middle +:+ secRing +:+ serverConf_tail.
Proof.
  intros Hdir. unfold serverConf.
  change "%BLOBPATH%"%string with (String percent "BLOBPATH%").
  change "%SECRING%"%string with (String percent "SECRING%").
  rewrite strings_Replace1_at by done.
  rewrite <- (String_app_assoc blobDir), <- (String_app_assoc serverConf_head).
  rewrite strings_Replace1_at.
  - by rewrite !String_app_assoc.
  - rewrite !inCutset_app, Hdir. done.
Qed.

(** X17: [newDefaultConfigFile] writes nothing when the blob directory
    cannot be created, and returns that error behind its own message.
    Otherwise, for a blob directory whose name has no percent sign, what it
    hands to [ioutil.WriteFile] for the given path, with mode 0700, is the
    template with the blob directory in place of the first placeholder and
    the path of secring.gpg in the configuration directory in place of the
    second, and its result is the result of that write. *)
Theorem newDefaultConfigFile_writes path w :
  (∀ err w1,
     os_MkdirAll osutil_CamliBlobRoot 448 w = (Some err, w1) →
     newDefaultConfigFile path w
     = (Some ("Could not create default blobs directory: " +:+ err), w1)) ∧
  (∀ w1,
     os_MkdirAll osutil_CamliBlobRoot 448 w = (None, w1) →
     inCutset percent osutil_CamliBlobRoot = false →
     newDefaultConfigFile path w
     = match ioutil_WriteFile path
               (serverConf_head +:+ osutil_CamliBlobRoot +:+ serverConf_middle
                +:+ filepath_Join osutil_CamliConfigDir "secring.gpg"
                +:+ serverConf_tail) 448 w1 with
       | (Some err, w2) =>
           (Some ("Could not create or write default server config: " +:+ err), w2)
       | (None, w2) => (None, w2)
       end).
Proof.
  unfold newDefaultConfigFile. split.
  - by intros err w1 ->.
  - intros w1 -> Hdir. by rewrite serverConf_filled.
Qed.

Lemma newDefaultConfigFile_nil path w w' :
  (∀ p content perm v v', ioutil_WriteFile p content perm v = (None, v') →
                          os_Stat p v' = None) →
  newDefaultConfigFile path w = (None, w') → os_Stat path w' = None.
Proof.
  intros Hlaw. unfold newDefaultConfigFile.
  destruct (os_MkdirAll osutil_CamliBlobRoot 448 w) as [[e|] w1]; [done|].
  destruct (ioutil_WriteFile path _ 448 w1) as [[e|] w2] eqn:Hw; [done|].
  intros [= <-]. by eapply Hlaw.
Qed.

Lemma findConfigFile_path file w :
  absPath (findConfigFile file w)
  = if String.eqb file "" then osutil_UserServerConfigPath
    else if filepath_IsAbs file then file
         else filepath_Join osutil_CamliConfigDir file.
Proof.
  unfold findConfigFile. destruct (String.eqb file ""); [|done].
  destruct (os_IsNotExist _); [|done].
  destruct (os_MkdirAll osutil_CamliConfigDir 448 w) as [e0 w1].
  by destruct (newDefaultConfigFile osutil_UserServerConfigPath w1).
Qed.

Lemma findConfigFile_nil_stat file w :
  (∀ p content perm v v', ioutil_WriteFile p content perm v = (None, v') →
                          os_Stat p v' = None) →
  find_err (findConfigFile file w) = None →
  os_Stat (absPath (findConfigFile file w)) (find_world (findConfigFile file w)) = None.
Proof.
  intros Hlaw. unfold findConfigFile.
  destruct (String.eqb file ""); [|by simpl].
  destruct (os_IsNotExist _); [|by simpl].
  destruct (os_MkdirAll osutil_CamliConfigDir 448 w) as [e0 w1].
  destruct (newDefaultConfigFile osutil_UserServerConfigPath w1) as [e w2] eqn:Hnew.
  simpl. intros ->. by eapply newDefaultConfigFile_nil.
Qed.

(** X18: on a system where a file that was written without error can be
    stat'ed, the path that [findConfigFile] returns with a nil error
    exists when the function returns, whether it found the file or wrote
    the default one. *)
Theorem findConfigFile_found file w :
  (∀ p content perm v v', ioutil_WriteFile p content perm v = (None, v') →
                          os_Stat p v' = None) →
  find_err (findConfigFile file w) = None →
  os_Stat (absPath (findConfigFile file w)) (find_world (findConfigFile file w)) = None.
Proof. apply findConfigFile_nil_stat. Qed.

(** X19: on such a system, where moreover a nil error is not a not-exist
    error, a second call after a call that returned a nil error returns the
    same path with a nil error, changes nothing and logs nothing: the
    default configuration is generated once. *)
Theorem findConfigFile_again file w :
  (∀ p content perm v v', ioutil_WriteFile p content perm v = (None, v') →
                          os_Stat p v' = None) →
  os_IsNotExist None = false →
  find_err (findConfigFile file w) = None →
  findConfigFile file (find_world (findConfigFile file w))
  = {| absPath := absPath (findConfigFile file w);
       find_err := None;
       find_world := find_world (findConfigFile file w);
       find_log := [] |}.
Proof.
  intros Hlaw Hnil Herr.
  pose proof (findConfigFile_nil_stat file w Hlaw Herr) as Hstat.
  rewrite findConfigFile_path in Hstat |- *.
  generalize dependent (find_world (findConfigFile file w)). intros w' Hstat.
  unfold findConfigFile. destruct (String.eqb file "").
  - by rewrite Hstat, Hnil.
  - by rewrite Hstat.
Qed.

(** X20: [findConfigFile] changes nothing and logs nothing when it is given
    a file name, and also when it is given none and the stat of the default
    path does not report a missing file; it then returns the error of the
    stat as it is.  The path is the name itself when absolute, the name
    joined to the configuration directory when relative, and the default
    path for the empty name. *)
Theorem findConfigFile_read_only file w :
  file ≠ EmptyString ∨ os_IsNotExist (os_Stat osutil_UserServerConfigPath w) = false →
  findConfigFile file w
  = let path :=
      if String.eqb file "" then osutil_UserServerConfigPath
      else if filepath_IsAbs file then file
           else filepath_Join osutil_CamliConfigDir file in
    {| absPath := path; find_err := os_Stat path w; find_world := w; find_log := [] |}.
Proof.
  intros Hcase. unfold findConfigFile.
  destruct (String.eqb_spec file "") as [->|Hne]; [|done].
  destruct Hcase as [? | ->]; done.
Qed.

(** ** TLS set-up *)

(** X21: [setupTLS] hands a certificate and key to the web server exactly
    when HTTPS is enabled and the process does not exit, and then neither
    name is empty: they are the two configured names, or the two default
    names when none is configured. *)
Theorem setupTLS_names config listen w :
  let cert := OptionalString config "TLSCertFile" "" in
  let key := OptionalString config "TLSKeyFile" "" in
  let r := setupTLS config listen w in
  (is_Some (setup_tls r)
   ↔ OptionalBool config "https" true = true ∧ setup_exit r = None) ∧
  (∀ c k, setup_tls r = Some (c, k) →
     c ≠ EmptyString ∧ k ≠ EmptyString ∧
     ((c = cert ∧ k = key) ∨
      (cert = EmptyString ∧ key = EmptyString ∧ c = defCert ∧ k = defKey))).
Proof.
  intros cert key r. subst r. unfold setupTLS. fold cert key.
  destruct (OptionalBool config "https" true); simpl.
  2:{ split; [|done]. split; [by intros [? [=]]|by intros [[=] _]]. }
  destruct (String.eqb_spec cert "") as [Hc|Hc], (String.eqb_spec key "") as [Hk|Hk]; simpl.
  - destruct (setupTLS_defaults cert key listen w) as [[[ex|] n] w1]; simpl.
    + split; [|done]. split; [by intros [? [=]]|by intros [_ [=]]].
    + destruct (genSelfTLS listen w1) as [[e|] w2]; simpl.
      * split; [|done]. split; [by intros [? [=]]|by intros [_ [=]]].
      * split; [split; eauto|]. intros c k [= <- <-]. split; [done|]. split; [done|].
        by right.
  - split; [|done]. split; [by intros [? [=]]|by intros [_ [=]]].
  - split; [|done]. split; [by intros [? [=]]|by intros [_ [=]]].
  - destruct (setupTLS_defaults cert key listen w) as [[[ex|] n] w1]; simpl.
    + split; [|done]. split; [by intros [? [=]]|by intros [_ [=]]].
    + split; [split; eauto|]. intros c k [= <- <-]. split; [done|]. split; [done|].
      by left.
Qed.

Lemma setupTLS_defaults_count cert key listen w :
  (setupTLS_defaults cert key listen w).1.2 = 0 ∨
  ((setupTLS_defaults cert key listen w).1.2 = 1 ∧ cert = defCert).
Proof.
  unfold setupTLS_defaults.
  destruct (String.eqb_spec cert defCert) as [->|]; simpl; [|by left].
  destruct (String.eqb key defKey); simpl; [|by left].
  destruct (_ || _); [|by left].
  destruct (_ || _); [|by left].
  destruct (genSelfTLS listen w) as [[e|] w1]; by right.
Qed.

(** X22: [setupTLS] calls [genSelfTLS] at most once.  It calls it not at
    all, and leaves the world as it is, when HTTPS is disabled (whatever
    the configured names), when both names are configured and are not the
    two default names, and when they are the default names and both files
    can be stat'ed. *)
Theorem setupTLS_generates config listen w :
  let cert := OptionalString config "TLSCertFile" "" in
  let key := OptionalString config "TLSKeyFile" "" in
  let r := setupTLS config listen w in
  setup_generated r ≤ 1 ∧
  (OptionalBool config "https" true = false →
     r = {| setup_exit := None; setup_tls := None; setup_generated := 0;
            setup_world := w |}) ∧
  (OptionalBool config "https" true = true →
   cert ≠ EmptyString → key ≠ EmptyString →
   ¬ (cert = defCert ∧ key = defKey) ∨
   (os_Stat cert w = None ∧ os_Stat key w = None) →
     r = {| setup_exit := None; setup_tls := Some (cert, key); setup_generated := 0;
            setup_world := w |}).
Proof.
  intros cert key r. subst r. unfold setupTLS, setupTLS_defaults. fold cert key.
  split; [|split].
  - destruct (negb _); simpl; [lia|]. destruct (xorb _ _); simpl; [lia|].
    fold (setupTLS_defaults cert key listen w).
    pose proof (setupTLS_defaults_count cert key listen w) as Hcount.
    destruct (setupTLS_defaults cert key listen w) as [[[ex|] n] w1]; simpl in *.
    + lia.
    + destruct (String.eqb_spec cert "") as [Hc|_]; simpl.
      * assert (n = 0) as -> by (destruct Hcount as [?|[_ Hd]]; [done|by rewrite Hd in Hc]).
        destruct (String.eqb key ""); simpl; [|lia].
        destruct (genSelfTLS listen w1) as [[e|] w2]; simpl; lia.
      * lia.
  - by intros ->.
  - intros -> Hc Hk Hcase. simpl.
    destruct (String.eqb_spec cert "") as [|_]; [done|].
    destruct (String.eqb_spec key "") as [|_]; [done|]. simpl.
    destruct (String.eqb_spec cert defCert) as [Hdc|_],
             (String.eqb_spec key defKey) as [Hdk|_]; simpl; try done.
    destruct Hcase as [Hn|[-> ->]]; [by destruct Hn|]. done.
Qed.

End ServerCommandProperties.

(** * The further properties on concrete inputs *)

Lemma newFromConfig_builds_witness :
  ∃ p s, deref (newFromConfig ∅ Sample.ld Sample.config30).1 p = Some s ∧
         replicaPrefixes s = ["/good/"; "/empty/"; "/down/"]%string ∧
         ctx s = None.
Proof.
  destruct (newFromConfig_builds ∅ Sample.ld Sample.config30 _ _ eq_refl)
    as (s & Hs & _ & Hp & _ & Hctx & _).
  eexists _, s. split; [exact Hs|]. split; [exact Hp|exact Hctx].
Defined.

Lemma newFromConfig_errors_witness :
  (newFromConfig ∅ Sample.ld Sample.config_unresolved).2
  = Err "no handler for /nope/"%string.
Proof.
  destruct (newFromConfig_errors ∅ Sample.ld Sample.config_unresolved)
    as (_ & _ & Hfirst & _).
  apply (Hfirst ["/good/"%string] "/nope/"%string ["/down/"%string]);
    [reflexivity|reflexivity| |reflexivity].
  repeat constructor. by exists Sample.good.
Defined.

Lemma FetchStreaming_nil_error_iff_witness :
  FetchStreaming (Sample.store [] 1) Sample.blob = (fetched_zero, 0).
Proof.
  destruct (FetchStreaming_nil_error_iff (Sample.store [] 1) Sample.blob)
    as (_ & Hempty & _).
  apply Hempty. reflexivity.
Defined.

Lemma ReceiveBlob_outcome_witness :
  ReceiveBlob Sample.sto_all_three Sample.blob Sample.hello [ReadsAll; ReadsAll; ReadsAll]
    [Sample.stored; Sample.truncated; Sample.stored]
  = finished 2 1 (Some (sizeMismatch 50 2)) 3 ∧
  ReceiveBlob Sample.sto_all_three Sample.blob Sample.hello [ReadsAll; ReadsOnly 1; ReadsAll]
    [Sample.stored; Sample.truncated; Sample.stored]
  = {| recv_ret := Blocks; recv_taken := 0; recv_events := [] |}.
Proof.
  destruct (ReceiveBlob_outcome Sample.sto_all_three Sample.blob Sample.hello
              [ReadsAll; ReadsAll; ReadsAll]
              [Sample.stored; Sample.truncated; Sample.stored] eq_refl)
    as [_ Hreturned].
  destruct (ReceiveBlob_outcome Sample.sto_all_three Sample.blob Sample.hello
              [ReadsAll; ReadsOnly 1; ReadsAll]
              [Sample.stored; Sample.truncated; Sample.stored] eq_refl)
    as [Hblocked _].
  split.
  - destruct (Hreturned 2%Z eq_refl) as [_ Hshort].
    apply Hshort. vm_compute. intros [_ Hle]. by apply Hle.
  - apply (Hblocked 1); [|simpl; lia].
    apply list_elem_of_further, list_elem_of_here.
Defined.

Lemma ReceiveBlob_returns_at_quorum_witness :
  ReceiveBlob Sample.sto_good_down_good Sample.blob Sample.hello
    [ReadsAll; ReadsAll; ReadsAll] [Sample.stored; Sample.stored; Sample.truncated]
  = ReceiveBlob Sample.sto_good_down_good Sample.blob Sample.hello
      [ReadsAll; ReadsAll; ReadsAll] [Sample.stored; Sample.stored; Sample.refused].
Proof.
  apply (ReceiveBlob_returns_at_quorum Sample.sto_good_down_good Sample.blob Sample.hello
           [ReadsAll; ReadsAll; ReadsAll] 2
           [Sample.stored] Sample.stored [Sample.refused] [Sample.truncated]);
    [reflexivity|reflexivity|reflexivity| |reflexivity].
  split; reflexivity.
Defined.

Lemma ReceiveBlob_last_error_witness :
  recv_ret (ReceiveBlob Sample.sto_all_three Sample.blob Sample.hello
              [ReadsAll; ReadsAll; ReadsAll]
              [Sample.refused; Sample.truncated; Sample.stored])
  = Returns (SizedBlobRef_zero, Some (sizeMismatch 50 2)).
Proof.
  apply (ReceiveBlob_last_error Sample.sto_all_three Sample.blob Sample.hello
           [ReadsAll; ReadsAll; ReadsAll] 2
           [Sample.refused] Sample.truncated [Sample.stored]);
    [reflexivity|reflexivity| | |].
  - intros [_ Hsize]. discriminate Hsize.
  - repeat constructor.
  - vm_compute. intros [_ Hle]. by apply Hle.
Defined.

Lemma WrapContext_same_decisions_witness :
  ∃ h' s2 s',
    WrapContext Sample.heap1 1%positive (Some ()) = Some (h', s2) ∧
    deref h' s2 = Some s' ∧
    ReceiveBlob s' Sample.blob Sample.hello [ReadsAll; ReadsAll; ReadsAll]
      [Sample.stored; Sample.stored; Sample.refused]
    = ReceiveBlob Sample.sto_good_down_good Sample.blob Sample.hello
        [ReadsAll; ReadsAll; ReadsAll] [Sample.stored; Sample.stored; Sample.refused].
Proof.
  eexists _, _, _. split; [reflexivity|].
  assert (Hcopy : deref (alloc Sample.heap1
                           (ObjReplica (withContext Sample.sto_good_down_good (Some ())))).1
                    (alloc Sample.heap1
                       (ObjReplica (withContext Sample.sto_good_down_good (Some ())))).2
                  = Some (withContext Sample.sto_good_down_good (Some ()))).
  { unfold deref, alloc; simpl. by rewrite lookup_insert_eq. }
  split; [exact Hcopy|].
  apply (WrapContext_same_decisions Sample.heap1 1%positive Sample.sto_good_down_good
           (Some ()) _ _ _ eq_refl eq_refl Hcopy).
Defined.

Lemma WrapContext_twice_witness :
  ∃ h1 s1 h2 s2,
    WrapContext Sample.heap1 1%positive (Some ()) = Some (h1, s1) ∧
    WrapContext h1 s1 None = Some (h2, s2) ∧
    deref h2 s2 = Some (withContext Sample.sto_good_down_good None).
Proof.
  eexists _, _, _, _. split; [reflexivity|].
  assert (Hsecond : ∃ r, WrapContext
            (alloc Sample.heap1
               (ObjReplica (withContext Sample.sto_good_down_good (Some ())))).1
            (alloc Sample.heap1
               (ObjReplica (withContext Sample.sto_good_down_good (Some ())))).2 None
          = Some r).
  { unfold WrapContext, deref, alloc; simpl. rewrite lookup_insert_eq. eauto. }
  destruct Hsecond as [[h2 s2] Hsecond].
  split.
  - unfold WrapContext, deref, alloc; simpl. rewrite lookup_insert_eq. reflexivity.
  - apply (WrapContext_twice Sample.heap1 1%positive Sample.sto_good_down_good
             (Some ()) None _ _ _ _ eq_refl eq_refl).
    unfold WrapContext, deref, alloc; simpl. rewrite lookup_insert_eq. reflexivity.
Defined.

Lemma StatBlobs_empty_request_witness :
  stat_ret (StatBlobs Sample.sto_down_empty [] 0 [] [Some "down"%string; None])
  = Returns None.
Proof.
  apply (StatBlobs_empty_request Sample.sto_down_empty 0 []
           [Some "down"%string; None]).
  reflexivity.
Defined.

Lemma StatBlobs_error_iff_witness :
  stat_ret (StatBlobs Sample.sto_down_empty [Sample.blob] 0 []
              [Some "down"%string; None])
  = Returns (Some "down"%string).
Proof.
  apply (StatBlobs_error_iff Sample.sto_down_empty [Sample.blob] 0 []
           [Some "down"%string; None] "down"%string eq_refl).
  split.
  - exists Sample.blob. split; [apply list_elem_of_here|]. apply not_elem_of_nil.
  - exists [], [None]. split; [reflexivity|]. repeat constructor.
Defined.

Lemma exitf_newline_witness :
  stderr_pattern (exitf "Could not load server config: %v" [ArgError (Some "eof"%string)])
  = ("Could not load server config: %v" +:+ newline)%string.
Proof.
  destruct (exitf_newline "Could not load server config: %v"
              [ArgError (Some "eof"%string)]) as (_ & _ & Hadd & _).
  apply Hadd. reflexivity.
Defined.

Lemma main_listen_flag_witness :
  main_addresses "0.0.0.0:3179" "https://example.com/camli"
  = ("0.0.0.0:3179"%string, "https://0.0.0.0:3179"%string).
Proof.
  destruct (main_listen_flag "0.0.0.0:3179" "https" "example.com/camli") as [Hat _];
    [discriminate|reflexivity|].
  exact Hat.
Defined.

(** The sample system is one where a written file can be stat'ed. *)
Lemma SampleOS_written p content perm v v' :
  ioutil_WriteFile (OS := SampleOS.os) p content perm v = (None, v') →
  os_Stat (OS := SampleOS.os) p v' = None.
Proof.
  simpl. intros [= <-]. simpl. rewrite lookup_insert_eq.
  by rewrite bool_decide_eq_true_2 by eauto.
Qed.

Lemma newDefaultConfigFile_writes_witness :
  (newDefaultConfigFile (H := SampleOS.os) "/home/u/.camli/serverconfig" SampleOS.empty).1
  = None.
Proof.
  destruct (newDefaultConfigFile_writes (H := SampleOS.os)
              "/home/u/.camli/serverconfig" SampleOS.empty) as [_ Hok].
  rewrite (Hok _ eq_refl eq_refl). reflexivity.
Defined.

Lemma findConfigFile_found_witness :
  os_Stat (OS := SampleOS.os)
    (absPath (findConfigFile (H := SampleOS.os) "" SampleOS.empty))
    (find_world (findConfigFile (H := SampleOS.os) "" SampleOS.empty)) = None.
Proof.
  apply (findConfigFile_found (H := SampleOS.os) "" SampleOS.empty SampleOS_written).
  reflexivity.
Defined.

Lemma findConfigFile_again_witness :
  find_log (findConfigFile (H := SampleOS.os) ""
              (find_world (findConfigFile (H := SampleOS.os) "" SampleOS.empty))) = [].
Proof.
  rewrite (findConfigFile_again (H := SampleOS.os) "" SampleOS.empty SampleOS_written
             eq_refl eq_refl).
  reflexivity.
Defined.

Lemma findConfigFile_read_only_witness :
  findConfigFile (H := SampleOS.os) "server.json" SampleOS.empty
  = {| absPath := "/home/u/.camli/server.json"; find_err := Some SampleOS.enoent;
       find_world := SampleOS.empty; find_log := [] |}.
Proof.
  rewrite (findConfigFile_read_only (H := SampleOS.os) "server.json" SampleOS.empty)
    by (left; discriminate).
  reflexivity.
Defined.

Lemma setupTLS_names_witness :
  setup_tls (setupTLS (H := SampleOS.os) SampleOS.unset ":3179" SampleOS.empty)
  = Some (defCert, defKey).
Proof.
  destruct (setupTLS_names (H := SampleOS.os) SampleOS.unset ":3179" SampleOS.empty)
    as [[_ Hsome] Hnames].
  destruct Hsome as [[c k] Htls]; [split; reflexivity|].
  destruct (Hnames c k Htls) as (Hc & _ & [[-> _]|(_ & _ & -> & ->)]); [by destruct Hc|].
  exact Htls.
Defined.

Lemma setupTLS_generates_witness :
  setupTLS (H := SampleOS.os)
    {| OptionalString := λ _ def, def; OptionalBool := λ _ _, false |}
    ":3179" SampleOS.empty
  = {| setup_exit := None; setup_tls := None; setup_generated := 0;
       setup_world := SampleOS.empty |}.
Proof.
  destruct (setupTLS_generates (H := SampleOS.os)
              {| OptionalString := λ _ def, def; OptionalBool := λ _ _, false |}
              ":3179" SampleOS.empty) as (_ & Hoff & _).
  apply Hoff. reflexivity.
Defined.
